(** * nse-bse-api: exchange data acquisition and derivatives analytics core

  A shallow embedding of the date-range chunker, the option-chain
  compiler (v3 and legacy), the gainers/losers filters, the BSE symbol
  parser and the request throttle, with the properties of the
  specification stated and settled over these definitions.

  Numbers.  A JavaScript number is an IEEE double.  Strike prices and
  open interests are whole numbers and are embedded as [Z] (exact in a
  double below 2^53); the underlying value and percentage changes are
  embedded as exact rationals [Q]; the non-finite results of a division
  by zero ([NaN], [Infinity]) are kept as constructors of [jsnum].
  Timestamps are milliseconds since the epoch, in [Z]. *)

From Stdlib Require Import ZArith QArith Qround Qabs Lqa List Sorted String Ascii Bool Lia.
From stdpp Require Import gmap strings.

Open Scope Z_scope.

(** ** JavaScript values and built-ins used by the sources *)

Module JS.

(** A number that may be the outcome of a division by zero. *)
Inductive jsnum : Set :=
| Num (q : Q)
| Infinity
| NegInfinity
| NaN.

(** [a / b] on whole numbers. *)
Definition div (a b : Z) : jsnum :=
  if b =? 0 then
    (if a =? 0 then NaN else if 0 <? a then Infinity else NegInfinity)
  else Num (inject_Z a / inject_Z b).

(** [Math.ceil(a / b)] for a positive divisor. *)
Definition ceilDiv (a : Z) (b : positive) : Z :=
  - ((- a) / Z.pos b).

(** [Math.round]: the nearest integer, a tie going towards [+Infinity]. *)
Definition Math_round (q : Q) : Z := Qfloor (q + (1 # 2)).

Definition Qltb (a b : Q) : bool := negb (Qle_bool b a).

(** [q.toFixed(2)] read back by [Number]: the multiple [n / 100] nearest to
    the magnitude of [q], the larger [n] on a tie, with the sign of [q].
    The quotient is the exact rational here; the source rounds the double
    nearest to it, which can fall on the other side of a tie (3075 / 3000
    prints as 1.02): at a tie the source may give the neighbouring
    hundredth. *)
Definition toFixed2 (q : Q) : Q :=
  if Qle_bool 0 q then Qfloor (q * 100 + (1 # 2)) # 100
  else - (Qfloor (- q * 100 + (1 # 2)) # 100).

(** [Number(x.toFixed(2))]: [NaN] and the infinities print as their names
    and are read back unchanged. *)
Definition Number_toFixed2 (x : jsnum) : jsnum :=
  match x with
  | Num q => Num (toFixed2 q)
  | other => other
  end.

Section Arrays.
Context {A : Type}.

(** [Array.prototype.sort(cmp)] is stable.  [before a b] is the test
    [cmp(a, b) <= 0]: [a] may stay in front of [b]. *)
Fixpoint sort_insert (before : A -> A -> bool) (x : A) (l : list A) : list A :=
  match l with
  | [] => [x]
  | y :: l' => if before x y then x :: l else y :: sort_insert before x l'
  end.

Fixpoint sort (before : A -> A -> bool) (l : list A) : list A :=
  match l with
  | [] => []
  | x :: l' => sort_insert before x (sort before l')
  end.

(** [l.slice(0, count)]: a negative [count] is taken from the end. *)
Definition slice0 (count : Z) (l : list A) : list A :=
  if count <? 0 then firstn (Z.to_nat (Z.of_nat (length l) + count)) l
  else firstn (Z.to_nat count) l.

(** [l.reduce(f)] without initial value: [TypeError] on an empty array. *)
Definition reduce1 (f : A -> A -> A) (l : list A) : option A :=
  match l with
  | [] => None
  | x :: l' => Some (fold_left f l' x)
  end.

End Arrays.

(** [[...new Set(l)]]: the distinct values in order of first occurrence. *)
Fixpoint Set_values (l : list Z) : list Z :=
  match l with
  | [] => []
  | x :: l' => x :: List.filter (fun y => negb (y =? x)) (Set_values l')
  end.

(** [l.sort((a, b) => a - b)]. *)
Definition sort_ascending (l : list Z) : list Z :=
  sort (fun a b => a - b <=? 0) l.

(** An object used as [Record<number, number>]: the own properties in
    order of creation. *)
Definition NumberRecord : Set := list (Z * Z).

(** [obj[k] = v]: an existing property keeps its place. *)
Fixpoint obj_set (k v : Z) (obj : NumberRecord) : NumberRecord :=
  match obj with
  | [] => [(k, v)]
  | (k', v') :: obj' =>
      if k' =? k then (k, v) :: obj' else (k', v') :: obj_set k v obj'
  end.

Fixpoint obj_get (k : Z) (obj : NumberRecord) : option Z :=
  match obj with
  | [] => None
  | (k', v') :: obj' => if k' =? k then Some v' else obj_get k obj'
  end.

(** The key [String(k)] of a whole number is an array index when
    [0 <= k < 2^32 - 1]. *)
Definition is_array_index (k : Z) : bool :=
  (0 <=? k) && (k <? 4294967295).

(** [Object.keys(obj).map(Number)]: array indices first, in ascending
    numeric order, then the other keys in order of creation. *)
Definition Object_keys (obj : NumberRecord) : list Z :=
  sort_ascending (List.filter is_array_index (map fst obj))
    ++ List.filter (fun k => negb (is_array_index k)) (map fst obj).

End JS.

(** ** Option chains: payloads and compiled view *)

Module Chain.

(** One side of a strike.  [chg] is the property the legacy compiler
    reads; upstream legs carry [change]. *)
Record OptionLeg : Set := {
  openInterest : Z;
  lastPrice : Q;
  change : Q;
  chg : option Q;
  impliedVolatility : Q
}.

(** A row carries [expiryDates] in the v3 schema and [expiryDate] in the
    legacy one.  [strikePrice] is a number in the source and a whole
    number here: a fractional strike is outside the embedding. *)
Record OptionRow : Set := {
  strikePrice : Z;
  expiryDates : option string;
  expiryDate : option string;
  CE : option OptionLeg;
  PE : option OptionLeg
}.

(** [records] of a response, and the rows of [filtered.data] (legacy). *)
Record OptionChainData : Set := {
  timestamp : string;
  underlyingValue : Q;
  data : list OptionRow;
  filtered_data : list OptionRow
}.

Record LegSummary : Set := {
  last : Q;
  oi : Z;
  leg_chg : option Q;
  iv : Q
}.

Record StrikeEntry : Set := {
  pe : LegSummary;
  ce : LegSummary;
  strike_pcr : option JS.jsnum
}.

(** [chain] is keyed by [String(strikePrice)], one key per whole number. *)
Record CompiledOptionChain : Type := {
  expiry : string;
  compiled_timestamp : string;
  underlying : Q;
  atm : JS.jsnum;
  maxpain : option Z;
  maxCoi : Z;
  maxPoi : Z;
  coiTotal : Z;
  poiTotal : Z;
  pcr : JS.jsnum;
  chain : gmap Z StrikeEntry
}.

Definition emptyLeg : LegSummary :=
  {| last := 0; oi := 0; leg_chg := Some 0%Q; iv := 0 |}.

(** [poi === 0 || coi === 0 ? null : Number((poi / coi).toFixed(2))] *)
Definition strikePcr (poi coi : Z) : option JS.jsnum :=
  if (poi =? 0) || (coi =? 0) then None
  else Some (JS.Number_toFixed2 (JS.div poi coi)).

(** [multiple * Math.round(underlying / multiple)] *)
Definition roundToMultiple (multiple : Z) (u : Q) : JS.jsnum :=
  if multiple =? 0 then JS.NaN
  else JS.Num (inject_Z (multiple * JS.Math_round (u / inject_Z multiple))).

(** The running values of the compile loop. *)
Record Totals : Type := {
  t_maxCoi : Z;
  t_maxPoi : Z;
  t_totalCoi : Z;
  t_totalPoi : Z;
  t_maxCoiStrike : Z;
  t_maxPoiStrike : Z;
  t_chain : gmap Z StrikeEntry
}.

Definition initTotals : Totals :=
  {| t_maxCoi := 0; t_maxPoi := 0; t_totalCoi := 0; t_totalPoi := 0;
     t_maxCoiStrike := 0; t_maxPoiStrike := 0; t_chain := ∅ |}.

(** One iteration of the loop over [data.records.data]; [legChg] selects
    the property stored as [chg] ([change] in v3, [chg] in legacy). *)
Definition compileRow (legChg : OptionLeg -> option Q)
    (t : Totals) (idx : OptionRow) : Totals :=
  let strike := strikePrice idx in
  let poi := from_option openInterest 0 (PE idx) in
  let coi := from_option openInterest 0 (CE idx) in
  let summary (leg : option OptionLeg) : LegSummary :=
    match leg with
    | Some l => {| last := lastPrice l; oi := openInterest l;
                   leg_chg := legChg l; iv := impliedVolatility l |}
    | None => emptyLeg
    end in
  let newMaxP := match PE idx with Some _ => t_maxPoi t <? poi | None => false end in
  let newMaxC := match CE idx with Some _ => t_maxCoi t <? coi | None => false end in
  {| t_maxCoi := if newMaxC then coi else t_maxCoi t;
     t_maxPoi := if newMaxP then poi else t_maxPoi t;
     t_totalCoi := t_totalCoi t + coi;
     t_totalPoi := t_totalPoi t + poi;
     t_maxCoiStrike := if newMaxC then strike else t_maxCoiStrike t;
     t_maxPoiStrike := if newMaxP then strike else t_maxPoiStrike t;
     t_chain := <[strike := {| pe := summary (PE idx); ce := summary (CE idx);
                               strike_pcr := strikePcr poi coi |}]> (t_chain t) |}.

(** The inner loop of the max-pain calculation: the pain at [expiryStrike],
    over the rows of the target expiry. *)
Definition painStep (expiryStrike : Z) (pain : Z) (y : OptionRow) : Z :=
  let diff := expiryStrike - strikePrice y in
  let pain1 :=
    match CE y with
    | Some ce => if 0 <? diff then pain + - diff * openInterest ce else pain
    | None => pain
    end in
  match PE y with
  | Some pe => if diff <? 0 then pain1 + diff * openInterest pe else pain1
  | None => pain1
  end.

Section MaxPain.
(** [matches x] is the test that keeps a row: its expiry is the target. *)
Variable matches : OptionRow -> bool.

Definition painAt (rows : list OptionRow) (expiryStrike : Z) : Z :=
  fold_left (fun pain y => if matches y then painStep expiryStrike pain y else pain)
            rows 0.

(** The outer loop, over the rows [l] still to visit; each pain is taken
    over all the rows [rows]. *)
Definition painMapFrom (rows l : list OptionRow) (painMap : JS.NumberRecord)
  : JS.NumberRecord :=
  fold_left (fun painMap x =>
               if matches x
               then JS.obj_set (strikePrice x) (painAt rows (strikePrice x)) painMap
               else painMap)
            l painMap.

Definition buildPainMap (rows : list OptionRow) : JS.NumberRecord :=
  painMapFrom rows rows [].

(** [strikes.sort((a, b) => painMap[b] - painMap[a])]; every strike is a
    key of [painMap]. *)
Definition sortByPain (painMap : JS.NumberRecord) (strikes : list Z) : list Z :=
  JS.sort (fun a b => from_option id 0 (JS.obj_get b painMap)
                        - from_option id 0 (JS.obj_get a painMap) <=? 0)
          strikes.

Definition maxPainStrike (rows : list OptionRow) : option Z :=
  let painMap := buildPainMap rows in
  head (sortByPain painMap (JS.Object_keys painMap)).

End MaxPain.

Definition someEqb (o : option string) (s : string) : bool :=
  match o with
  | Some s' => String.eqb s' s
  | None => false
  end.

(** [a || b] on optional strings: the empty string is falsy. *)
Definition orElse (a b : option string) : option string :=
  match a with
  | Some EmptyString | None => b
  | Some _ => a
  end.

End Chain.

(** ** [src/nse/api/options-api.ts] *)

Module OptionsApi.
Import Chain.

(** [calculateMaxPainV3]: [sorted[0] || 0]. *)
Definition calculateMaxPainV3 (optionChain : OptionChainData) (expiry : string) : Z :=
  from_option id 0
    (maxPainStrike (fun x => someEqb (expiryDates x) expiry) (data optionChain)).

(** The distinct strikes, ascending, and the interval they give. *)
Definition sortedStrikes (rows : list OptionRow) : list Z :=
  JS.sort_ascending (JS.Set_values (map strikePrice rows)).

Definition strikeInterval (rows : list OptionRow) : Z :=
  match sortedStrikes rows with
  | s0 :: s1 :: _ => s1 - s0
  | _ => 50
  end.

(** [compileOptionChainV3], from the response [data] of
    [getOptionChainV3({ symbol, expiry })]. *)
Definition compileOptionChainV3 (data : OptionChainData) (expiry : string)
  : CompiledOptionChain :=
  let t := fold_left (compileRow (fun l => Some (change l))) (Chain.data data) initTotals in
  {| Chain.expiry := expiry;
     compiled_timestamp := timestamp data;
     underlying := underlyingValue data;
     atm := roundToMultiple (strikeInterval (Chain.data data)) (underlyingValue data);
     maxpain := Some (calculateMaxPainV3 data expiry);
     maxCoi := t_maxCoiStrike t;
     maxPoi := t_maxPoiStrike t;
     coiTotal := t_totalCoi t;
     poiTotal := t_totalPoi t;
     pcr := if 0 <? t_totalCoi t
            then JS.Number_toFixed2 (JS.div (t_totalPoi t) (t_totalCoi t))
            else JS.Num 0;
     chain := t_chain t |}.

(** The result of [getFilteredOptionChainV3].  [rows] is [filteredData],
    the rows of the payload that the window keeps; the source then copies
    a selection of the properties of each into [essentialData], which the
    record does not model. *)
Record FilteredView : Set := {
  atmStrike : Z;
  minStrike : Z;
  maxStrike : Z;
  totalStrikes : nat;
  rows : list OptionRow
}.

Definition closer (u : Q) (prev curr : Z) : Z :=
  if JS.Qltb (Qabs (inject_Z curr - u)) (Qabs (inject_Z prev - u))
  then curr else prev.

(** [getFilteredOptionChainV3], from the response [fullData]; [None] is
    the [TypeError] of [reduce] on an empty array. *)
Definition getFilteredOptionChainV3 (fullData : OptionChainData) (strikeRange : Z)
  : option FilteredView :=
  let u := underlyingValue fullData in
  let uniqueStrikes := JS.Set_values (map strikePrice (data fullData)) in
  match JS.reduce1 (closer u) uniqueStrikes with
  | None => None
  | Some atmK =>
      let sorted := JS.sort_ascending uniqueStrikes in
      let interval := match sorted with s0 :: s1 :: _ => s1 - s0 | _ => 50 end in
      let lo := atmK - strikeRange * interval in
      let hi := atmK + strikeRange * interval in
      let kept := List.filter (fun item => (lo <=? strikePrice item)
                                        && (strikePrice item <=? hi))
                         (data fullData) in
      Some {| atmStrike := atmK; minStrike := lo; maxStrike := hi;
              totalStrikes := length kept; rows := kept |}
  end.

Section WithDates.
(** [formatDateExpiry] of [utils/date-formatter] is not among the sources:
    the functions that take a [Date] are given it. *)
Variable Date : Type.
Variable formatDateExpiry : Date -> string.

(** [calculateMaxPain], for both schemas:
    [itemExpiry = x.expiryDates || x.expiryDate]. *)
Definition calculateMaxPain (optionChain : OptionChainData) (expiryDate : Date) : Z :=
  let expiryDateStr := formatDateExpiry expiryDate in
  from_option id 0
    (maxPainStrike
       (fun x => someEqb (orElse (expiryDates x) (Chain.expiryDate x)) expiryDateStr)
       (data optionChain)).

(** [compileOptionChain] formats the date and calls the v3 compiler. *)
Definition compileOptionChain (data : OptionChainData) (expiryDate : Date)
  : CompiledOptionChain :=
  compileOptionChainV3 data (formatDateExpiry expiryDate).

End WithDates.

End OptionsApi.

(** ** The legacy options module ([unnamed/part_002]) *)

Module LegacyOptionsApi.
Import Chain.

Section WithDates.
Variable Date : Type.
Variable formatDateExpiry : Date -> string.

(** [calculateMaxPain]: [sorted[0]], [undefined] when no row matches. *)
Definition calculateMaxPain (optionChain : OptionChainData) (expiryDate : Date)
  : option Z :=
  maxPainStrike (fun x => someEqb (Chain.expiryDate x) (formatDateExpiry expiryDate))
                (data optionChain).

(** [compileOptionChain], from the response [data] of [getOptionChain];
    [None] is the [TypeError] of reading [strikePrice] of a missing row of
    [data.filtered.data]. *)
Definition compileOptionChain (data : OptionChainData) (expiryDate : Date)
  : option CompiledOptionChain :=
  let expiryDateStr := formatDateExpiry expiryDate in
  match filtered_data data with
  | r0 :: r1 :: _ =>
      let multiple := strikePrice r0 - strikePrice r1 in
      let t := fold_left
                 (fun t idx => if someEqb (Chain.expiryDate idx) expiryDateStr
                               then compileRow chg t idx else t)
                 (Chain.data data) initTotals in
      Some {| Chain.expiry := expiryDateStr;
              compiled_timestamp := timestamp data;
              underlying := underlyingValue data;
              atm := roundToMultiple multiple (underlyingValue data);
              maxpain := calculateMaxPain data expiryDate;
              maxCoi := t_maxCoiStrike t;
              maxPoi := t_maxPoiStrike t;
              coiTotal := t_totalCoi t;
              poiTotal := t_totalPoi t;
              pcr := JS.Number_toFixed2 (JS.div (t_totalPoi t) (t_totalCoi t));
              chain := t_chain t |}
  | _ => None
  end.

End WithDates.

End LegacyOptionsApi.

(** ** [EquityApi.getGainers] and [getLosers] *)

Module EquityApi.

Record MarketRow : Set := {
  symbol : string;
  pChange : Q
}.

(** [count] is [None] when the argument is not a number. *)
Definition getGainers (data : list MarketRow) (count : option Z) : list MarketRow :=
  let filtered :=
    JS.sort (fun a b => Qle_bool (pChange b - pChange a) 0)
            (List.filter (fun d => JS.Qltb 0 (pChange d)) data) in
  match count with
  | Some c => JS.slice0 c filtered
  | None => filtered
  end.

Definition getLosers (data : list MarketRow) (count : option Z) : list MarketRow :=
  let filtered :=
    JS.sort (fun a b => Qle_bool (pChange a - pChange b) 0)
            (List.filter (fun d => JS.Qltb (pChange d) 0) data) in
  match count with
  | Some c => JS.slice0 c filtered
  | None => filtered
  end.

End EquityApi.

(** ** The BSE symbol parser *)

Module SymbolParser.

(** The white space and line terminators that [trim] strips, among the
    characters of the embedding (code points below 256, one [ascii]
    each): tab, line feed, vertical tab, form feed, carriage return,
    space and no-break space. *)
Definition isWhiteSpace (c : ascii) : bool :=
  let n := N_of_ascii c in
  ((9 <=? n) && (n <=? 13) || (n =? 32) || (n =? 160))%N.

Fixpoint trimStart (s : string) : string :=
  match s with
  | EmptyString => EmptyString
  | String c s' => if isWhiteSpace c then trimStart s' else s
  end.

Fixpoint trimEnd (s : string) : string :=
  match s with
  | EmptyString => EmptyString
  | String c s' =>
      match trimEnd s' with
      | EmptyString => if isWhiteSpace c then EmptyString else String c EmptyString
      | t => String c t
      end
  end.

Definition trim (s : string) : string := trimEnd (trimStart s).

Definition isEmpty (s : string) : bool :=
  match s with
  | EmptyString => true
  | String _ _ => false
  end.

(** [data.includes(' ')] *)
Fixpoint includesSpace (s : string) : bool :=
  match s with
  | EmptyString => false
  | String c s' => Ascii.eqb c " " || includesSpace s'
  end.

(** [data.split(sep)] for a one-character separator, here any character
    that [isSep] accepts: one part more than there are separators. *)
Fixpoint splitWhere (isSep : ascii -> bool) (s : string) : list string :=
  match s with
  | EmptyString => [EmptyString]
  | String c s' =>
      if isSep c then EmptyString :: splitWhere isSep s'
      else match splitWhere isSep s' with
           | [] => [String c EmptyString]
           | part :: parts => String c part :: parts
           end
  end.

(** [data.split(' ')] *)
Definition splitOnSpace (s : string) : list string :=
  splitWhere (fun c => Ascii.eqb c " ") s.

(** [data.split(' ').filter(part => part.trim() !== '')] *)
Definition subTokens (data : string) : list string :=
  List.filter (fun part => negb (isEmpty (trim part))) (splitOnSpace data).

(** A string of white space only. *)
Fixpoint isBlank (s : string) : bool :=
  match s with
  | EmptyString => true
  | String c s' => isWhiteSpace c && isBlank s'
  end.

(** [Partial<LookupResult>] is the map of the properties set so far. *)
Record Parser : Type := {
  result : gmap string string;
  start : bool;
  index : nat
}.

Definition fields : list string :=
  ["company_name"; "symbol"; "isin"; "bse_code"]%string.

Definition newParser : Parser :=
  {| result := ∅; start := false; index := 0 |}.

Definition resetData (p : Parser) : Parser := newParser.

(** [!this.result.symbol] holds for a missing and for an empty symbol. *)
Definition getResult (p : Parser) : option (gmap string string) :=
  match result p !! "symbol"%string with
  | Some (String _ _) => Some (result p)
  | _ => None
  end.

Definition has (field : string) (p : Parser) : bool :=
  match result p !! field with
  | Some _ => true
  | None => false
  end.

(** [for (const x of xs) f(x)], for an [f] that may run out of fuel. *)
Fixpoint forEach {S X : Type} (f : S -> X -> option S) (xs : list X) (st : S)
  : option S :=
  match xs with
  | [] => Some st
  | x :: xs' =>
      match f st x with
      | Some st' => forEach f xs' st'
      | None => None
      end
  end.

(** [handleData], the recursion of the source bounded by [fuel]; [None]
    when the fuel runs out. *)
Fixpoint handleDataRec (fuel : nat) (p : Parser) (data : string) : option Parser :=
  match fuel with
  | O => None
  | S fuel' =>
      if negb (start p) || (length fields <=? index p)%nat then Some p
      else
        match fields !! index p with
        | None => Some p
        | Some field =>
            if has field p then Some p
            else if has "company_name" p && includesSpace data then
              let parts := subTokens data in
              forEach (handleDataRec fuel') parts p
            else
              Some {| result := <[field := trim data]> (result p);
                      start := start p;
                      index := S (index p) |}
        end
  end.

(** The branch of [handleData] that does not split: the whole of [data],
    trimmed, goes to the first field not yet set, unless the parser has
    not started, is past the last field, or has the field already. *)
Definition dispatch (p : Parser) (data : string) : Parser :=
  if negb (start p) || (length fields <=? index p)%nat then p
  else
    match fields !! index p with
    | None => p
    | Some field =>
        if has field p then p
        else {| result := <[field := trim data]> (result p);
                start := start p;
                index := S (index p) |}
    end.

(** A part of a split has no space left, so the recursion is one call
    deep and two units of fuel are enough (see [handleDataRec_fuel]). *)
Definition handleData (p : Parser) (data : string) : Parser :=
  from_option id p (handleDataRec 2 p data).

(** [feed], from the text of the anchors that the HTML parser finds in the
    string, in document order. *)
Definition feed (anchors : list string) (p : Parser) : Parser :=
  match anchors with
  | [] => p
  | _ =>
      fold_left
        (fun p anchor =>
           let textContent := trim anchor in
           if isEmpty textContent then p else handleData p textContent)
        anchors
        {| result := result p; start := true; index := 0 |}
  end.

(** No property of the record is the empty string. *)
Definition nonEmptyValues (p : Parser) : Prop :=
  map_Forall (fun _ v => isEmpty v = false) (result p).

(** The public methods, and a parser after a sequence of calls. *)
Inductive Call : Set :=
| Feed (anchors : list string)
| ResetData.

Definition call (p : Parser) (c : Call) : Parser :=
  match c with
  | Feed anchors => feed anchors p
  | ResetData => resetData p
  end.

Definition run (calls : list Call) : Parser := fold_left call calls newParser.

End SymbolParser.

(** ** The request throttle *)

Module Throttle.

Inductive ThrottleType : Set := Lookup | Default.

Record ClassConfig : Set := {
  rps : positive;
  delayMs : Z
}.

Definition throttleConfig (type : ThrottleType) : ClassConfig :=
  match type with
  | Lookup => {| rps := 15; delayMs := JS.ceilDiv 1000 15 |}
  | Default => {| rps := 8; delayMs := JS.ceilDiv 1000 8 |}
  end.

(** The clock read by [Date.now()] and the two module-level timestamps. *)
Record World : Set := {
  clock : Z;
  lastDefaultRequest : Z;
  lastLookupRequest : Z
}.

Definition initialWorld (now : Z) : World :=
  {| clock := now; lastDefaultRequest := 0; lastLookupRequest := 0 |}.

Definition lastRequest (type : ThrottleType) (w : World) : Z :=
  match type with
  | Lookup => lastLookupRequest w
  | Default => lastDefaultRequest w
  end.

Definition setLastRequest (type : ThrottleType) (t : Z) (w : World) : World :=
  match type with
  | Lookup => {| clock := clock w; lastDefaultRequest := lastDefaultRequest w;
                 lastLookupRequest := t |}
  | Default => {| clock := clock w; lastDefaultRequest := t;
                  lastLookupRequest := lastLookupRequest w |}
  end.

(** Time passing by [ms] milliseconds. *)
Definition elapse (ms : Z) (w : World) : World :=
  {| clock := clock w + ms; lastDefaultRequest := lastDefaultRequest w;
     lastLookupRequest := lastLookupRequest w |}.

(** [await delay(ms)]: the timer is set for [Math.max(0, ms)] and the
    caller resumes [late] milliseconds after it is due. *)
Definition delay (ms late : Z) (w : World) : World :=
  elapse (Z.max 0 ms + late) w.

(** The part of [check] before the suspension: [waitTime]. *)
Definition waitTime (type : ThrottleType) (w : World) : Z :=
  let now := clock w in
  let timeSinceLastRequest := now - lastRequest type w in
  delayMs (throttleConfig type) - timeSinceLastRequest.

(** The part of [check] after the suspension: [last = Date.now()]. *)
Definition stamp (type : ThrottleType) (w : World) : World :=
  setLastRequest type (clock w) w.

(** [check(type)] run to completion by one caller. *)
Definition check (type : ThrottleType) (late : Z) (w : World) : World :=
  let wt := waitTime type w in
  stamp type (if 0 <? wt then delay wt late w else w).

End Throttle.

(** ** DateRangeChunker *)

Module DateRange.

(** Milliseconds in a day: dates are [Date] objects, compared and
    subtracted through their millisecond timestamps. *)
Definition oneDay : Z := 86400000.

Inductive DateError : Set := InvalidRangeError.

Definition DateChunk : Set := (Z * Z)%type.

Definition totalDaysInclusive (from to : Z) : Z :=
  (to - from) / oneDay + 1.

Definition numChunks (from to : Z) (chunkDays : positive) : Z :=
  JS.ceilDiv (totalDaysInclusive from to) chunkDays.

Definition chunkAt (from to : Z) (chunkDays : positive) (i : Z) : DateChunk :=
  (from + i * Z.pos chunkDays * oneDay,
   Z.min (from + ((i + 1) * Z.pos chunkDays - 1) * oneDay) to).

(** Modelled from the spec: [splitDateRange] of [bse/utils/helpers] and
    of [nse/utils/date-formatter] is imported by the tests and by the
    historical API but is not among the sources; this is the algorithm of
    section 4.3 (precondition, number of chunks, bounds of chunk [i]).
    The chunk size is a positive number of days. *)
Definition splitDateRange (from to : Z) (chunkDays : positive)
  : DateError + list DateChunk :=
  if to <? from then inl InvalidRangeError
  else inr (map (fun i : nat => chunkAt from to chunkDays (Z.of_nat i))
                (seq 0 (Z.to_nat (numChunks from to chunkDays)))).

End DateRange.

(** ** The specification's formulas, in its own words *)

Module Spec.
Import Chain.

Definition sumZ (l : list Z) : Z := foldr Z.add 0 l.

Definition callOI (y : OptionRow) : Z := from_option openInterest 0 (CE y).
Definition putOI (y : OptionRow) : Z := from_option openInterest 0 (PE y).

(** [pain(K)], over the rows [rows] of the target expiry: the sum of
    [(K > S) ? -(K - S) * callOI(S) : 0] plus the sum of
    [(K < S) ? (K - S) * putOI(S) : 0]. *)
Definition pain (rows : list OptionRow) (K : Z) : Z :=
  sumZ (map (fun y => if strikePrice y <? K
                      then - (K - strikePrice y) * callOI y else 0) rows)
  + sumZ (map (fun y => if K <? strikePrice y
                        then (K - strikePrice y) * putOI y else 0) rows).

(** The strike that comes first when the strikes, in the order of the
    input rows, are sorted by descending pain with a stable sort. *)
Definition maxPainInputOrder (rows : list OptionRow) : option Z :=
  head (JS.sort (fun a b => pain rows b - pain rows a <=? 0)
                (map strikePrice rows)).

(** [K] is a max-pain strike of the rows [rows] of the target expiry: a
    listed strike whose pain no listed strike exceeds, and the lowest such
    strike when the strikes are array indices (keys that an object lists
    in ascending order). *)
Definition MaxPainStrike (rows : list OptionRow) (K : Z) : Prop :=
  In K (map strikePrice rows) /\
  (forall x, In x rows -> pain rows (strikePrice x) <= pain rows K) /\
  ((forall x, In x rows -> JS.is_array_index (strikePrice x) = true) ->
   forall x, In x rows ->
     pain rows (strikePrice x) = pain rows K -> K <= strikePrice x).

(** The sub-tokens of a fragment split on white space of any kind. *)
Definition whiteSpaceTokens (data : string) : list string :=
  List.filter (fun part => negb (SymbolParser.isEmpty part))
              (SymbolParser.splitWhere SymbolParser.isWhiteSpace data).

End Spec.

(** ** Fixtures of the test suites and of the specification *)

Module Fixtures.

Definition marketRow (s : string) (p : Q) : EquityApi.MarketRow :=
  {| EquityApi.symbol := s; EquityApi.pChange := p |}.

(** The rows of section 8, and of the gainers test: [-1, 2, 5, 3]. *)
Definition gainersInput : list EquityApi.MarketRow :=
  [marketRow "A" (-1); marketRow "B" 2; marketRow "C" 5; marketRow "D" 3].

(** The rows of the losers test: [-1, 2, -5, 3]. *)
Definition losersInput : list EquityApi.MarketRow :=
  [marketRow "A" (-1); marketRow "B" 2; marketRow "C" (-5); marketRow "D" 3].

Definition leg (openInterest : Z) : Chain.OptionLeg :=
  {| Chain.openInterest := openInterest; Chain.lastPrice := 0;
     Chain.change := 0; Chain.chg := None; Chain.impliedVolatility := 0 |}.

Definition rowV3 (expiry : string) (strike callOI putOI : Z) : Chain.OptionRow :=
  {| Chain.strikePrice := strike; Chain.expiryDates := Some expiry;
     Chain.expiryDate := None;
     Chain.CE := Some (leg callOI); Chain.PE := Some (leg putOI) |}.

Definition rowLegacy (expiry : string) (strike callOI putOI : Z) : Chain.OptionRow :=
  {| Chain.strikePrice := strike; Chain.expiryDates := None;
     Chain.expiryDate := Some expiry;
     Chain.CE := Some (leg callOI); Chain.PE := Some (leg putOI) |}.

Definition response (u : Q) (rows filtered : list Chain.OptionRow)
  : Chain.OptionChainData :=
  {| Chain.timestamp := "26-Sep-2025 15:30:00"; Chain.underlyingValue := u;
     Chain.data := rows; Chain.filtered_data := filtered |}.

Definition sep26 : string := "26-Sep-2025".

(** The crafted chain of the max-pain tests: strikes 100/110/120, call
    open interest 10/5/0, put open interest 0/5/15. *)
Definition craftedChainV3 : Chain.OptionChainData :=
  response 112 [rowV3 sep26 100 10 0; rowV3 sep26 110 5 5; rowV3 sep26 120 0 15] [].

Definition craftedChain : Chain.OptionChainData :=
  response 112
    [rowLegacy sep26 100 10 0; rowLegacy sep26 110 5 5; rowLegacy sep26 120 0 15] [].

(** The same rows, highest strike first. *)
Definition craftedChainDescending : Chain.OptionChainData :=
  response 112 [rowV3 sep26 120 0 15; rowV3 sep26 110 5 5; rowV3 sep26 100 10 0] [].

(** A chain on which only puts are open: the total call open interest is
    zero.  The same rows in the legacy schema and in the v3 schema. *)
Definition putsOnlyRow (schemaV3 : bool) (strike putOI : Z) : Chain.OptionRow :=
  {| Chain.strikePrice := strike;
     Chain.expiryDates := if schemaV3 then Some sep26 else None;
     Chain.expiryDate := if schemaV3 then None else Some sep26;
     Chain.CE := None; Chain.PE := Some (leg putOI) |}.

Definition putsOnlyChain : Chain.OptionChainData :=
  response 105 [putsOnlyRow false 100 5; putsOnlyRow false 110 7]
               [putsOnlyRow false 100 5; putsOnlyRow false 110 7].

Definition putsOnlyChainV3 : Chain.OptionChainData :=
  response 105 [putsOnlyRow true 100 5; putsOnlyRow true 110 7] [].

(** The anchors of the symbol parser tests. *)
Definition hdfcAnchors : list string :=
  ["HDFC Bank Ltd"; "HDFCBANK"; "INE040A01034"; "500180"]%string.

Definition hdfcCombinedAnchors : list string :=
  ["HDFC Bank Ltd"; "HDFCBANK  INE040A01034"; "500180"]%string.

Definition hdfcRecord : gmap string string :=
  {[ "company_name" := "HDFC Bank Ltd"; "symbol" := "HDFCBANK";
     "isin" := "INE040A01034"; "bse_code" := "500180" ]}%string.

(** Symbol and ISIN in one anchor, separated by a tab (character 9). *)
Definition tabbedFragment : string :=
  ("HDFCBANK" ++ String "009" "INE040A01034")%string.

End Fixtures.

(** ** [OptionsApi.getFnoLots]: the lot-size file *)

Module FnoLots.
Import SymbolParser.

Definition endsWithCR (s : string) : bool :=
  match String.rev s with
  | String c _ => Ascii.eqb c "013"
  | EmptyString => false
  end.

Definition dropLast (s : string) : string :=
  String.rev (match String.rev s with
              | String _ r => r
              | EmptyString => EmptyString
              end).

(** The parts before the last lose the carriage return that the
    separator [\r?\n] takes with the line feed. *)
Fixpoint dropCRs (parts : list string) : list string :=
  match parts with
  | [] => []
  | [lastPart] => [lastPart]
  | part :: rest =>
      (if endsWithCR part then dropLast part else part) :: dropCRs rest
  end.

(** [csv.split(/\r?\n/)] *)
Definition splitLines (csv : string) : list string :=
  dropCRs (splitWhere (fun c => Ascii.eqb c "010") csv).

(** [typeof res === "string" ? res : ""], then the text response when that
    is empty; [res] is [None] when the request fails or does not answer
    with a string. *)
Definition chooseCsv (res : option string) (text : string) : string :=
  match res with
  | Some (String c r) => String c r
  | _ => text
  end.

Section WithNumber.
(** [Number], as it reads a trimmed cell. *)
Variable Number : string -> JS.jsnum.

(** The symbol and lot of a line, or [None] where the loop continues:
    fewer than four cells, an empty symbol, a lot that is not finite. *)
Definition entryOf (line : string) : option (string * Q) :=
  let parts := splitWhere (fun c => Ascii.eqb c ",") line in
  if (length parts <? 4)%nat then None
  else
    match parts !! 1%nat, parts !! 3%nat with
    | Some cell1, Some cell3 =>
        let sym := trim cell1 in
        match Number (trim cell3) with
        | JS.Num lot => if isEmpty sym then None else Some (sym, lot)
        | _ => None
        end
    | _, _ => None
    end.

(** [lots[sym] = lot] on an object literal: the key [__proto__] reaches
    the setter of [Object.prototype], which ignores a number. *)
Definition setLot (sym : string) (lot : Q) (lots : gmap string Q) : gmap string Q :=
  if String.eqb sym "__proto__" then lots else <[sym := lot]> lots.

Definition readLots (lines : list string) : gmap string Q :=
  fold_left (fun lots line =>
               match entryOf line with
               | Some (sym, lot) => setLot sym lot lots
               | None => lots
               end)
            lines ∅.

Definition getFnoLots (res : option string) (text : string) : gmap string Q :=
  readLots (splitLines (trim (chooseCsv res text))).

End WithNumber.

End FnoLots.

(** ** [MarketApi.getBulkDeals] *)

Module MarketApi.

Inductive BulkDealsError : Set :=
| RangeExceedsOneYear
| NoBulkDeals.

Section WithRequest.
(** [formatDateDMY] of [utils/date-formatter] is not among the sources;
    [request url] is the [data] property of the response, [None] when it
    is missing. *)
Variable formatDateDMY : Z -> string.
Variable Deal : Type.
Variable request : string -> option (list Deal).

Definition bulkDealsUrl (fromDate toDate : Z) : string :=
  ("https://www.nseindia.com/api/historical/bulk-deals?from="
     ++ formatDateDMY fromDate ++ "&to=" ++ formatDateDMY toDate)%string.

Definition getBulkDeals (fromDate toDate : Z) : BulkDealsError + list Deal :=
  let daysDiff := (inject_Z (toDate - fromDate) / 86400000)%Q in
  if JS.Qltb 365 daysDiff then inl RangeExceedsOneYear
  else
    match request (bulkDealsUrl fromDate toDate) with
    | Some (deal :: deals) => inr (deal :: deals)
    | _ => inl NoBulkDeals
    end.

End WithRequest.

End MarketApi.

(** ** The legacy filtered view ([unnamed/part_002]) *)

Module LegacyFilteredView.
Import Chain.

(** [getFilteredOptionChain] of the legacy module, with [rows] its
    [filteredData]: the strikes are reduced as listed and the window is in
    steps of 50. *)
Definition getFilteredOptionChain (fullData : OptionChainData) (strikeRange : Z)
  : option OptionsApi.FilteredView :=
  let u := underlyingValue fullData in
  let strikes := map strikePrice (data fullData) in
  match JS.reduce1 (OptionsApi.closer u) strikes with
  | None => None
  | Some atmK =>
      let lo := atmK - strikeRange * 50 in
      let hi := atmK + strikeRange * 50 in
      let kept := List.filter (fun item => (lo <=? strikePrice item)
                                        && (strikePrice item <=? hi))
                         (data fullData) in
      Some {| OptionsApi.atmStrike := atmK; OptionsApi.minStrike := lo;
              OptionsApi.maxStrike := hi;
              OptionsApi.totalStrikes := length kept; OptionsApi.rows := kept |}
  end.

End LegacyFilteredView.

(** ** Runs of the parser and of the throttle *)

Module Runs.

(** The tokens that one [feed] of a new parser dispatches: the first
    anchor with text whole, each later one as its sub-tokens when it has a
    space. *)
Definition laterTokens (text : string) : list string :=
  if SymbolParser.includesSpace text then SymbolParser.subTokens text else [text].

Definition tokensOf (anchors : list string) : list string :=
  match List.filter (fun t => negb (SymbolParser.isEmpty t))
                    (map SymbolParser.trim anchors) with
  | [] => []
  | first :: later => first :: concat (map laterTokens later)
  end.

(** Calls of [check] of one class made one after the other: each starts
    [gap] milliseconds after the one before has completed and its timer
    fires [late] milliseconds late.  The list holds the clock at each
    completion. *)
Fixpoint completions (type : Throttle.ThrottleType) (calls : list (Z * Z))
    (w : Throttle.World) : list Z :=
  match calls with
  | [] => []
  | (gap, late) :: calls' =>
      let w' := Throttle.check type late (Throttle.elapse gap w) in
      Throttle.clock w' :: completions type calls' w'
  end.

(** The state of a parser in the middle of a feed: the first [n] fields
    are set, they alone, and the next token goes to field [n]. *)
Definition filled (n : nat) (p : SymbolParser.Parser) : Prop :=
  (n <= 4)%nat /\
  SymbolParser.start p = true /\ SymbolParser.index p = n /\
  forall k : string,
    is_Some (SymbolParser.result p !! k) <->
    exists i : nat, (i < n)%nat /\ SymbolParser.fields !! i = Some k.

End Runs.

(* ================================================================== *)
(** * Properties *)
(* ================================================================== *)

(** ** DateRangeChunker *)

Section DateRangeFacts.
Import DateRange.

Lemma oneDay_pos : 0 < oneDay.
Proof. unfold oneDay. lia. Qed.

Lemma ceilDiv_bounds (a : Z) (b : positive) :
  (JS.ceilDiv a b - 1) * Z.pos b < a <= JS.ceilDiv a b * Z.pos b.
Proof.
  unfold JS.ceilDiv.
  pose proof (Z.div_mod (- a) (Z.pos b) ltac:(lia)) as Hdm.
  pose proof (Z.mod_pos_bound (- a) (Z.pos b) ltac:(lia)) as Hm.
  nia.
Qed.

Lemma totalDays_bounds (from to : Z) :
  (totalDaysInclusive from to - 1) * oneDay <= to - from
    < totalDaysInclusive from to * oneDay.
Proof.
  unfold totalDaysInclusive.
  pose proof (Z.div_mod (to - from) oneDay ltac:(unfold oneDay; lia)) as Hdm.
  pose proof (Z.mod_pos_bound (to - from) oneDay oneDay_pos) as Hm.
  nia.
Qed.

Lemma numChunks_pos (from to : Z) (c : positive) :
  from <= to -> 1 <= numChunks from to c.
Proof.
  intros Hle. unfold numChunks.
  pose proof (ceilDiv_bounds (totalDaysInclusive from to) c) as Hc.
  pose proof (totalDays_bounds from to) as Ht.
  pose proof oneDay_pos. nia.
Qed.

Lemma splitDateRange_ok (from to : Z) (c : positive) :
  from <= to ->
  splitDateRange from to c =
    inr (map (fun i : nat => chunkAt from to c (Z.of_nat i))
             (seq 0 (Z.to_nat (numChunks from to c)))).
Proof.
  intros Hle. unfold splitDateRange.
  destruct (Z.ltb_spec to from); [lia | reflexivity].
Qed.

Lemma chunks_lookup (from to : Z) (c : positive) (n i : nat) (a : DateChunk) :
  map (fun i : nat => chunkAt from to c (Z.of_nat i)) (seq 0 n) !! i = Some a ->
  (i < n)%nat /\ a = chunkAt from to c (Z.of_nat i).
Proof.
  intros H. rewrite list_lookup_fmap in H.
  destruct (seq 0 n !! i) as [j|] eqn:Hj; [|discriminate].
  apply lookup_seq in Hj as [-> Hlt]. simpl in H. injection H as <-. auto.
Qed.

(** The chunks of a valid range, taken together: unconditional part. *)
Lemma splitDateRange_shape (from to : Z) (c : positive) :
  from <= to ->
  exists chunks : list DateChunk,
    splitDateRange from to c = inr chunks /\
    Z.of_nat (length chunks) = numChunks from to c /\
    (forall (i : nat) (a : DateChunk),
        chunks !! i = Some a -> a = chunkAt from to c (Z.of_nat i)) /\
    (forall i : nat, (i < length chunks)%nat ->
        chunks !! i = Some (chunkAt from to c (Z.of_nat i))).
Proof.
  intros Hle. eexists. split; [apply splitDateRange_ok; exact Hle|].
  pose proof (numChunks_pos from to c Hle) as Hn.
  rewrite length_map, length_seq. repeat split.
  - lia.
  - intros i a H. apply chunks_lookup in H. tauto.
  - intros i Hi. rewrite list_lookup_fmap, lookup_seq_lt by exact Hi. reflexivity.
Qed.

(** C7.  [splitDateRange] fails with [InvalidRangeError] exactly when
    [from] is after [to]; and a one-day range [d, d] succeeds with the
    single chunk [(d, d)], whatever the chunk size. *)
Theorem splitDateRange_error_iff :
  (forall (from to : Z) (c : positive),
      splitDateRange from to c = inl InvalidRangeError <-> to < from) /\
  (forall (d : Z) (c : positive), splitDateRange d d c = inr [(d, d)]).
Proof.
  split.
  - intros from to c. unfold splitDateRange.
    destruct (Z.ltb_spec to from); split; intros H'; try reflexivity;
      try discriminate; lia.
  - intros d c. rewrite splitDateRange_ok by lia.
    assert (Hn : numChunks d d c = 1).
    { pose proof (ceilDiv_bounds (totalDaysInclusive d d) c) as Hc.
      unfold numChunks. unfold totalDaysInclusive in *.
      rewrite Z.sub_diag, Z.div_0_l in * by (unfold oneDay; lia). nia. }
    rewrite Hn. simpl. unfold chunkAt. simpl Z.of_nat.
    do 2 f_equal. f_equal; [lia|].
    pose proof oneDay_pos. apply Z.min_r. nia.
Qed.

(** C2, as stated, fails: for a range of a day and a half cut in chunks of
    two days, the only chunk ends one day after [from], half a day before
    [to]. *)
Lemma splitDateRange_last_not_to :
  ~ (forall (from to : Z) (c : positive),
        from <= to ->
        exists chunks : list DateChunk,
          splitDateRange from to c = inr chunks /\
          snd <$> last chunks = Some to).
Proof.
  intros H. destruct (H 0 129600000 2%positive ltac:(lia)) as (chunks & Hs & Hl).
  vm_compute in Hs. injection Hs as <-. vm_compute in Hl. discriminate.
Qed.

(** C2, amended.  For [from <= to]: the first chunk starts at [from]; each
    chunk starts one day after the previous one ends, and no chunk is
    empty; every whole day [from + k] days of the range lies in exactly one
    chunk; the number of chunks is [ceil (totalDaysInclusive / chunkDays)];
    the last chunk ends less than a day before [to], and exactly at [to]
    when [to - from] is a whole number of days. *)
Theorem splitDateRange_partition (from to : Z) (c : positive) :
  from <= to ->
  exists chunks : list DateChunk,
    splitDateRange from to c = inr chunks /\
    (* length = ceil (total / chunkDays) *)
    (Z.of_nat (length chunks) - 1) * Z.pos c < totalDaysInclusive from to
      <= Z.of_nat (length chunks) * Z.pos c /\
    fst <$> chunks !! 0%nat = Some from /\
    (forall (i : nat) (a b : DateChunk),
        chunks !! i = Some a -> chunks !! S i = Some b ->
        fst b = snd a + oneDay) /\
    (forall (i : nat) (a : DateChunk), chunks !! i = Some a -> fst a <= snd a) /\
    (forall k : Z, 0 <= k < totalDaysInclusive from to ->
        exists i : nat,
          (exists a, chunks !! i = Some a /\
                     fst a <= from + k * oneDay <= snd a) /\
          (forall (j : nat) (b : DateChunk),
              chunks !! j = Some b ->
              fst b <= from + k * oneDay <= snd b -> j = i)) /\
    (exists z : DateChunk,
        last chunks = Some z /\ to - oneDay < snd z <= to /\
        ((oneDay | to - from) -> snd z = to)).
Proof.
  intros Hle.
  destruct (splitDateRange_shape from to c Hle) as (chunks & Hs & Hlen & Hget & Hat).
  exists chunks. split; [exact Hs|].
  pose proof (numChunks_pos from to c Hle) as Hn.
  pose proof (ceilDiv_bounds (totalDaysInclusive from to) c) as Hc.
  fold (numChunks from to c) in Hc.
  pose proof (totalDays_bounds from to) as Ht.
  pose proof oneDay_pos as Hd.
  set (T := totalDaysInclusive from to) in *.
  set (n := numChunks from to c) in *.
  set (C := Z.pos c) in *. assert (HC : 0 < C) by (unfold C; lia).
  (* chunks before the last one are full *)
  assert (Hfull : forall i : Z, 0 <= i -> i + 1 < n ->
            snd (chunkAt from to c i) = from + ((i + 1) * C - 1) * oneDay).
  { intros i Hi0 Hi. unfold chunkAt. cbn [snd]. fold C. apply Z.min_l. nia. }
  split; [rewrite Hlen; exact Hc|].
  split; [rewrite Hat by lia; unfold chunkAt; cbn; f_equal; lia|].
  split.
  { intros i a b Ha Hb.
    assert (Hi : (S i < length chunks)%nat) by (apply lookup_lt_Some in Hb; exact Hb).
    apply Hget in Ha, Hb. subst a b.
    rewrite Hfull by lia. unfold chunkAt. cbn [fst]. fold C. lia. }
  split.
  { intros i a Ha.
    assert (Hi : (i < length chunks)%nat) by (apply lookup_lt_Some in Ha; exact Ha).
    apply Hget in Ha. subst a. unfold chunkAt. cbn [fst snd]. fold C.
    assert (Hi1 : Z.of_nat i * C <= (n - 1) * C) by (apply Z.mul_le_mono_nonneg_r; lia).
    assert (Hi2 : Z.of_nat i * C * oneDay <= (T - 1) * oneDay)
      by (apply Z.mul_le_mono_nonneg_r; lia).
    apply Z.min_glb; [|lia].
    assert (0 <= (C - 1) * oneDay) by (apply Z.mul_nonneg_nonneg; lia). lia. }
  split.
  { intros k Hk.
    pose proof (Z.div_mod k C ltac:(lia)) as Hdm.
    pose proof (Z.mod_pos_bound k C HC) as Hm.
    assert (Hq : 0 <= k / C < n).
    { split; [apply Z.div_pos; lia | apply Z.div_lt_upper_bound; nia]. }
    exists (Z.to_nat (k / C)). split.
    - exists (chunkAt from to c (k / C)). split.
      + rewrite Hat by lia. rewrite Z2Nat.id by lia. reflexivity.
      + unfold chunkAt. cbn [fst snd]. fold C. split; [nia|].
        apply Z.min_glb; nia.
    - intros j b Hb Hin.
      assert (Hj : (j < length chunks)%nat) by (apply lookup_lt_Some in Hb; exact Hb).
      apply Hget in Hb. subst b. unfold chunkAt in Hin. cbn [fst snd] in Hin.
      fold C in Hin. destruct Hin as [Hlo Hhi].
      apply Z.min_glb_iff in Hhi as [Hhi _].
      assert (Z.of_nat j = k / C) by nia. lia. }
  exists (chunkAt from to c (n - 1)). split.
  { rewrite last_lookup.
    replace (Init.Nat.pred (length chunks)) with (Z.to_nat (n - 1)) by lia.
    rewrite Hat by lia. rewrite Z2Nat.id by lia. reflexivity. }
  unfold chunkAt. cbn [snd]. fold C. replace (n - 1 + 1) with n by lia.
  assert (HT : T * oneDay <= n * C * oneDay) by (apply Z.mul_le_mono_nonneg_r; lia).
  split.
  - split; [apply Z.min_glb_lt; lia | apply Z.le_min_r].
  - intros [q Hq]. apply Z.min_r.
    assert (q < T) by (apply (Z.mul_lt_mono_pos_r oneDay); lia).
    assert (q * oneDay <= (n * C - 1) * oneDay)
      by (apply Z.mul_le_mono_nonneg_r; lia).
    lia.
Qed.

(** A range of thirty-one days in chunks of ten, as in the helper tests. *)
Lemma splitDateRange_partition_witness :
  1672531200000 <= 1675123200000 /\
  exists chunks : list DateChunk,
    splitDateRange 1672531200000 1675123200000 10 = inr chunks /\
    length chunks = 4%nat /\
    snd <$> last chunks = Some 1675123200000.
Proof.
  split; [lia|].
  destruct (splitDateRange_partition 1672531200000 1675123200000 10 ltac:(lia))
    as (chunks & Hs & _).
  exists chunks. split; [exact Hs|].
  vm_compute in Hs. injection Hs as <-. split; reflexivity.
Defined.

End DateRangeFacts.

(** ** Arrays: the stable sort *)

Section SortFacts.
Context {A : Type} (before : A -> A -> bool).

Lemma sort_insert_perm (x : A) (l : list A) :
  JS.sort_insert before x l ≡ₚ x :: l.
Proof.
  induction l as [|y l IH]; simpl; [reflexivity|].
  destruct (before x y); [reflexivity|].
  rewrite IH. apply Permutation_swap.
Qed.

Lemma sort_perm (l : list A) : JS.sort before l ≡ₚ l.
Proof.
  induction l as [|x l IH]; simpl; [reflexivity|].
  rewrite sort_insert_perm, IH. reflexivity.
Qed.

Lemma sort_elem_of (l : list A) (x : A) : x ∈ JS.sort before l <-> x ∈ l.
Proof. rewrite (sort_perm l). reflexivity. Qed.

Lemma sort_In (l : list A) (x : A) : In x (JS.sort before l) <-> In x l.
Proof. rewrite <- !list_elem_of_In. apply sort_elem_of. Qed.

(** The head of the sorted array: the new element stays in front of the
    old head when the comparator allows it. *)
Lemma head_sort_insert (x : A) (l : list A) :
  head (JS.sort_insert before x l) =
    match head l with
    | None => Some x
    | Some y => if before x y then Some x else Some y
    end.
Proof.
  destruct l as [|y l]; simpl; [reflexivity|].
  destruct (before x y); reflexivity.
Qed.

Hypothesis before_total : forall a b, before a b = false -> before b a = true.

Lemma sort_insert_Sorted (x : A) (l : list A) :
  Sorted (fun a b => before a b = true) l ->
  Sorted (fun a b => before a b = true) (JS.sort_insert before x l).
Proof.
  induction l as [|y l IH]; simpl; intros Hs.
  - repeat constructor.
  - destruct (before x y) eqn:Hxy.
    + constructor; [exact Hs | constructor; exact Hxy].
    + apply Sorted_inv in Hs as [Hs Hhd].
      constructor; [apply IH; exact Hs|].
      destruct l as [|z l]; simpl.
      * constructor. apply before_total. exact Hxy.
      * destruct (before x z); constructor.
        -- apply before_total. exact Hxy.
        -- apply HdRel_inv in Hhd. exact Hhd.
Qed.

Lemma sort_Sorted (l : list A) :
  Sorted (fun a b => before a b = true) (JS.sort before l).
Proof.
  induction l as [|x l IH]; simpl; [constructor|].
  apply sort_insert_Sorted. exact IH.
Qed.

End SortFacts.

Lemma Sorted_firstn {A : Type} (R : A -> A -> Prop) (n : nat) (l : list A) :
  Sorted R l -> Sorted R (firstn n l).
Proof.
  revert n. induction l as [|x l IH]; intros [|n] Hs; simpl; try constructor.
  - apply IH. apply Sorted_inv in Hs. tauto.
  - apply Sorted_inv in Hs as [Hs Hhd].
    destruct l as [|y l]; destruct n; simpl; constructor.
    apply HdRel_inv in Hhd. exact Hhd.
Qed.

Lemma slice0_firstn {A : Type} (c : Z) (l : list A) :
  exists n : nat, JS.slice0 c l = firstn n l.
Proof. unfold JS.slice0. destruct (c <? 0); eexists; reflexivity. Qed.

(** ** Gainers and losers *)

Section EquityFacts.
Import EquityApi Fixtures.

Lemma getGainers_take (data : list MarketRow) (count : option Z) :
  exists n : nat,
    getGainers data count =
      take n (JS.sort (fun a b => Qle_bool (pChange b - pChange a) 0)
                      (List.filter (fun d => JS.Qltb 0 (pChange d)) data)).
Proof.
  unfold getGainers. destruct count as [c|].
  - apply slice0_firstn.
  - eexists. symmetry. apply firstn_all.
Qed.

Lemma getLosers_take (data : list MarketRow) (count : option Z) :
  exists n : nat,
    getLosers data count =
      take n (JS.sort (fun a b => Qle_bool (pChange a - pChange b) 0)
                      (List.filter (fun d => JS.Qltb (pChange d) 0) data)).
Proof.
  unfold getLosers. destruct count as [c|].
  - apply slice0_firstn.
  - eexists. symmetry. apply firstn_all.
Qed.

Lemma Qltb_lt (a b : Q) : JS.Qltb a b = true <-> (a < b)%Q.
Proof.
  unfold JS.Qltb. rewrite negb_true_iff, <- not_true_iff_false, Qle_bool_iff.
  split; [apply Qnot_le_lt | apply Qlt_not_le].
Qed.

Lemma Qle_bool_sub (a b : Q) : Qle_bool (a - b) 0 = true <-> (a <= b)%Q.
Proof. rewrite Qle_bool_iff. split; intros H; lra. Qed.

Lemma Qle_bool_sub_total (a b : Q) :
  Qle_bool (a - b) 0 = false -> Qle_bool (b - a) 0 = true.
Proof.
  rewrite <- not_true_iff_false, !Qle_bool_sub. intros H.
  apply Qlt_le_weak, Qnot_le_lt. exact H.
Qed.

(** Gainers are the rows that rose, best first; losers those that fell,
    worst first. *)
Lemma getGainers_sorted (data : list MarketRow) (count : option Z) :
  Forall (fun d => (0 < pChange d)%Q) (getGainers data count) /\
  Sorted (fun a b => (pChange b <= pChange a)%Q) (getGainers data count).
Proof.
  destruct (getGainers_take data count) as [n ->]. split.
  - apply Forall_take, Forall_forall. intros d Hd.
    apply sort_elem_of, list_elem_of_In, filter_In in Hd as [_ Hd]. apply Qltb_lt. exact Hd.
  - apply Sorted_firstn.
    eapply Sorted_ind with (P := Sorted _);
      [constructor | | apply (sort_Sorted (fun a b => Qle_bool (pChange b - pChange a) 0))].
    + intros a l _ IH Hhd. constructor; [exact IH|].
      destruct Hhd; constructor. apply Qle_bool_sub. assumption.
    + intros a b. apply Qle_bool_sub_total.
Qed.

Lemma getLosers_sorted (data : list MarketRow) (count : option Z) :
  Forall (fun d => (pChange d < 0)%Q) (getLosers data count) /\
  Sorted (fun a b => (pChange a <= pChange b)%Q) (getLosers data count).
Proof.
  destruct (getLosers_take data count) as [n ->]. split.
  - apply Forall_take, Forall_forall. intros d Hd.
    apply sort_elem_of, list_elem_of_In, filter_In in Hd as [_ Hd]. apply Qltb_lt. exact Hd.
  - apply Sorted_firstn.
    eapply Sorted_ind with (P := Sorted _);
      [constructor | | apply (sort_Sorted (fun a b => Qle_bool (pChange a - pChange b) 0))].
    + intros a l _ IH Hhd. constructor; [exact IH|].
      destruct Hhd; constructor. apply Qle_bool_sub. assumption.
    + intros a b. apply Qle_bool_sub_total.
Qed.

(** C5, as stated, fails: of the rows [-1, 2, 5, 3] only [A] fell, so the
    two worst losers are not [C, A]. *)
Lemma getLosers_section8_rows :
  map symbol (getLosers gainersInput (Some 2)) <> ["C"; "A"]%string.
Proof. vm_compute. discriminate. Qed.

(** C5, amended.  On the rows [-1, 2, 5, 3] for [A, B, C, D], [getGainers]
    with count 2 returns [C, D] and [getLosers] with count 2 returns [A],
    the only row that fell; on the rows [-1, 2, -5, 3] of the losers test
    [getLosers] with count 2 returns [C, A].  In general the gainers all
    rose and come in descending order of [pChange], the losers all fell
    and come in ascending order. *)
Theorem gainers_losers_fixture :
  map symbol (getGainers gainersInput (Some 2)) = ["C"; "D"]%string /\
  map symbol (getLosers gainersInput (Some 2)) = ["A"]%string /\
  map symbol (getLosers losersInput (Some 2)) = ["C"; "A"]%string /\
  (forall (data : list MarketRow) (count : option Z),
      Forall (fun d => (0 < pChange d)%Q) (getGainers data count) /\
      Sorted (fun a b => (pChange b <= pChange a)%Q) (getGainers data count)) /\
  (forall (data : list MarketRow) (count : option Z),
      Forall (fun d => (pChange d < 0)%Q) (getLosers data count) /\
      Sorted (fun a b => (pChange a <= pChange b)%Q) (getLosers data count)).
Proof.
  split; [reflexivity|]. split; [reflexivity|]. split; [reflexivity|].
  split; [apply getGainers_sorted | apply getLosers_sorted].
Qed.

End EquityFacts.

(** ** Objects keyed by numbers *)

Section NumberRecordFacts.

Lemma obj_get_set (k k' v : Z) (obj : JS.NumberRecord) :
  JS.obj_get k' (JS.obj_set k v obj) =
    if k' =? k then Some v else JS.obj_get k' obj.
Proof.
  induction obj as [|[k0 v0] obj IH]; simpl.
  - destruct (Z.eqb_spec k k'), (Z.eqb_spec k' k); try reflexivity; lia.
  - destruct (Z.eqb_spec k0 k) as [->|Hne]; simpl.
    + destruct (Z.eqb_spec k k'), (Z.eqb_spec k' k); try reflexivity; lia.
    + destruct (Z.eqb_spec k0 k') as [->|Hne'].
      * destruct (Z.eqb_spec k' k); [lia | reflexivity].
      * exact IH.
Qed.

Lemma obj_set_keys (k v : Z) (obj : JS.NumberRecord) (k' : Z) :
  In k' (map fst (JS.obj_set k v obj)) <-> k' = k \/ In k' (map fst obj).
Proof.
  induction obj as [|[k0 v0] obj IH]; simpl.
  - intuition congruence.
  - destruct (Z.eqb_spec k0 k) as [->|Hne]; simpl.
    + intuition congruence.
    + rewrite IH. intuition congruence.
Qed.

Lemma obj_get_Some (k : Z) (obj : JS.NumberRecord) :
  In k (map fst obj) -> exists v, JS.obj_get k obj = Some v.
Proof.
  induction obj as [|[k0 v0] obj IH]; simpl; [tauto|].
  intros [->|Hin].
  - rewrite Z.eqb_refl. eauto.
  - destruct (k0 =? k); eauto.
Qed.

Lemma filter_complement_perm {A : Type} (f : A -> bool) (l : list A) :
  List.filter f l ++ List.filter (fun x => negb (f x)) l ≡ₚ l.
Proof.
  induction l as [|x l IH]; simpl; [reflexivity|].
  destruct (f x); simpl.
  - rewrite IH. reflexivity.
  - rewrite <- Permutation_middle, IH. reflexivity.
Qed.

(** [Object.keys] lists every key once: it permutes the keys. *)
Lemma Object_keys_perm (obj : JS.NumberRecord) :
  JS.Object_keys obj ≡ₚ map fst obj.
Proof.
  unfold JS.Object_keys, JS.sort_ascending.
  rewrite sort_perm. apply filter_complement_perm.
Qed.

Lemma Object_keys_In (obj : JS.NumberRecord) (k : Z) :
  In k (JS.Object_keys obj) <-> In k (map fst obj).
Proof. rewrite <- !list_elem_of_In, Object_keys_perm. reflexivity. Qed.

Lemma filter_all {A : Type} (f : A -> bool) (l : list A) :
  (forall x, In x l -> f x = true) -> List.filter f l = l.
Proof.
  induction l as [|x l IH]; simpl; intros H; [reflexivity|].
  rewrite (H x) by auto. f_equal. apply IH. auto.
Qed.

Lemma filter_none {A : Type} (f : A -> bool) (l : list A) :
  (forall x, In x l -> f x = false) -> List.filter f l = [].
Proof.
  induction l as [|x l IH]; simpl; intros H; [reflexivity|].
  rewrite (H x) by auto. apply IH. auto.
Qed.

(** When every key is an array index the keys come in ascending order. *)
Lemma Object_keys_ascending (obj : JS.NumberRecord) :
  (forall k, In k (map fst obj) -> JS.is_array_index k = true) ->
  StronglySorted Z.le (JS.Object_keys obj).
Proof.
  intros Hidx. unfold JS.Object_keys.
  rewrite (filter_all _ _ Hidx), filter_none, app_nil_r.
  - apply Sorted_StronglySorted; [intros a b c; apply Z.le_trans|].
    unfold JS.sort_ascending.
    eapply Sorted_ind with (P := Sorted _);
      [constructor | | apply (sort_Sorted (fun a b => a - b <=? 0))].
    + intros a l _ IH Hhd. constructor; [exact IH|].
      destruct Hhd as [|b l' Hab]; constructor.
      apply Z.leb_le in Hab. lia.
    + intros a b H. apply Z.leb_gt in H. apply Z.leb_le. lia.
  - intros k Hk. rewrite (Hidx k Hk). reflexivity.
Qed.

End NumberRecordFacts.

(** ** The first maximum under a stable descending sort *)

Section HeadOfSort.
Context {A : Type} (f : A -> Z).

Lemma head_sort_descending (l : list A) :
  match head (JS.sort (fun a b => f b - f a <=? 0) l) with
  | None => l = []
  | Some K =>
      exists pre post : list A,
        l = pre ++ K :: post /\
        (forall S, In S pre -> f S < f K) /\
        (forall S, In S post -> f S <= f K)
  end.
Proof.
  induction l as [|x l IH]; [reflexivity|].
  cbn [JS.sort]. rewrite head_sort_insert.
  destruct (head (JS.sort _ l)) as [y|].
  - destruct IH as (pre & post & -> & Hpre & Hpost).
    destruct (Z.leb_spec (f y - f x) 0) as [Hle|Hgt].
    + exists [], (pre ++ y :: post). split; [reflexivity|]. split; [intros S []|].
      intros S HS. apply in_app_or in HS as [HS|[<-|HS]].
      * specialize (Hpre S HS). lia.
      * lia.
      * specialize (Hpost S HS). lia.
    + exists (x :: pre), post. split; [reflexivity|]. split; [|exact Hpost].
      intros S [<-|HS]; [lia | apply Hpre; exact HS].
  - subst l. exists [], []. split; [reflexivity|]. split; intros S [].
Qed.

End HeadOfSort.

(** ** Max pain *)

Section MaxPainFacts.
Import Chain.
Variable matches : OptionRow -> bool.

Lemma painStep_formula (K pain : Z) (y : OptionRow) :
  painStep K pain y =
    pain + (if strikePrice y <? K then - (K - strikePrice y) * Spec.callOI y else 0)
         + (if K <? strikePrice y then (K - strikePrice y) * Spec.putOI y else 0).
Proof.
  unfold painStep, Spec.callOI, Spec.putOI.
  destruct (CE y) as [ce|], (PE y) as [pe|]; simpl;
    destruct (Z.ltb_spec 0 (K - strikePrice y)),
             (Z.ltb_spec (K - strikePrice y) 0),
             (Z.ltb_spec (strikePrice y) K),
             (Z.ltb_spec K (strikePrice y)); lia.
Qed.

(** The loop of the source computes the formula of the specification. *)
Lemma painAt_formula (rows : list OptionRow) (K : Z) :
  painAt matches rows K = Spec.pain (List.filter matches rows) K.
Proof.
  unfold painAt, Spec.pain.
  enough (H : forall acc,
             fold_left (fun pain y => if matches y then painStep K pain y else pain)
                       rows acc
             = acc + Spec.pain (List.filter matches rows) K)
    by (rewrite H; reflexivity).
  induction rows as [|y rows IH]; intros acc; simpl.
  - unfold Spec.pain. simpl. lia.
  - rewrite IH. destruct (matches y); [|reflexivity].
    rewrite painStep_formula. unfold Spec.pain. simpl. lia.
Qed.

Lemma painMapFrom_keys (rows l : list OptionRow) (painMap : JS.NumberRecord) (k : Z) :
  In k (map fst (painMapFrom matches rows l painMap)) <->
  In k (map fst painMap) \/ In k (map strikePrice (List.filter matches l)).
Proof.
  revert painMap. induction l as [|x l IH]; intros painMap; simpl; [tauto|].
  unfold painMapFrom in *. simpl. rewrite IH.
  destruct (matches x); simpl; [|tauto].
  rewrite obj_set_keys. intuition congruence.
Qed.

Lemma painMapFrom_values (rows l : list OptionRow) (painMap : JS.NumberRecord) :
  (forall k v, JS.obj_get k painMap = Some v -> v = painAt matches rows k) ->
  forall k v, JS.obj_get k (painMapFrom matches rows l painMap) = Some v ->
              v = painAt matches rows k.
Proof.
  revert painMap. induction l as [|x l IH]; intros painMap Hinv; simpl; [exact Hinv|].
  unfold painMapFrom in *. simpl. apply IH.
  destruct (matches x); [|exact Hinv].
  intros k v. rewrite obj_get_set.
  destruct (Z.eqb_spec k (strikePrice x)) as [->|Hne]; [congruence | apply Hinv].
Qed.

Lemma buildPainMap_keys (rows : list OptionRow) (k : Z) :
  In k (map fst (buildPainMap matches rows)) <->
  In k (map strikePrice (List.filter matches rows)).
Proof.
  unfold buildPainMap.
  rewrite painMapFrom_keys. simpl. tauto.
Qed.

Lemma buildPainMap_get (rows : list OptionRow) (k : Z) :
  In k (map strikePrice (List.filter matches rows)) ->
  JS.obj_get k (buildPainMap matches rows) =
    Some (Spec.pain (List.filter matches rows) k).
Proof.
  intros Hk. apply buildPainMap_keys, obj_get_Some in Hk as [v Hv].
  rewrite Hv. f_equal. rewrite <- painAt_formula.
  unfold buildPainMap in Hv.
  eapply painMapFrom_values; [|exact Hv]. intros k' v' H'. discriminate.
Qed.

(** The strike found, in terms of the key order of the pain map: it is the
    first key of maximal pain. *)
Lemma maxPainStrike_first_max (rows : list OptionRow) :
  match maxPainStrike matches rows with
  | None => List.filter matches rows = []
  | Some K =>
      exists pre post : list Z,
        JS.Object_keys (buildPainMap matches rows) = pre ++ K :: post /\
        (forall S, In S pre ->
           Spec.pain (List.filter matches rows) S < Spec.pain (List.filter matches rows) K) /\
        (forall S, In S post ->
           Spec.pain (List.filter matches rows) S <= Spec.pain (List.filter matches rows) K)
  end.
Proof.
  unfold maxPainStrike, sortByPain.
  set (painMap := buildPainMap matches rows).
  pose proof (head_sort_descending
                (fun k => from_option id 0 (JS.obj_get k painMap))
                (JS.Object_keys painMap)) as H.
  cbv beta in H.
  destruct (head (JS.sort _ (JS.Object_keys painMap))) as [K|].
  - destruct H as (pre & post & Hkeys & Hpre & Hpost).
    assert (Hval : forall S, In S (JS.Object_keys painMap) ->
              from_option id 0 (JS.obj_get S painMap)
              = Spec.pain (List.filter matches rows) S).
    { intros S HS. apply Object_keys_In, buildPainMap_keys in HS.
      unfold painMap. rewrite (buildPainMap_get rows S HS). reflexivity. }
    exists pre, post. split; [exact Hkeys|].
    rewrite Hkeys in Hval.
    assert (HK := Hval K ltac:(apply in_elt)).
    split; intros S HS.
    + rewrite <- HK, <- (Hval S) by (apply in_or_app; auto). apply Hpre, HS.
    + rewrite <- HK, <- (Hval S) by (apply in_or_app; simpl; auto). apply Hpost, HS.
  - destruct (List.filter matches rows) as [|x l] eqn:Hf; [reflexivity|].
    assert (Hin : In (strikePrice x) (JS.Object_keys painMap)).
    { apply Object_keys_In, buildPainMap_keys. rewrite Hf. simpl. auto. }
    rewrite H in Hin. destruct Hin.
Qed.

(** What the source returns for the rows of the target expiry: a listed
    strike of maximal pain, the lowest of them when the strikes are array
    indices. *)
Lemma maxPainStrike_spec (rows : list OptionRow) :
  List.filter matches rows <> [] ->
  exists K : Z,
    maxPainStrike matches rows = Some K /\
    Spec.MaxPainStrike (List.filter matches rows) K.
Proof.
  intros Hne. pose proof (maxPainStrike_first_max rows) as H.
  destruct (maxPainStrike matches rows) as [K|]; [|contradiction].
  destruct H as (pre & post & Hkeys & Hpre & Hpost).
  exists K. split; [reflexivity|]. unfold Spec.MaxPainStrike.
  assert (Hmem : forall S, In S (map strikePrice (List.filter matches rows)) <->
                           In S (pre ++ K :: post)).
  { intros S. rewrite <- Hkeys, Object_keys_In, buildPainMap_keys. reflexivity. }
  split; [apply Hmem, in_elt|]. split.
  - intros x Hx.
    assert (HS : In (strikePrice x) (pre ++ K :: post))
      by (apply Hmem, in_map; exact Hx).
    apply in_app_or in HS as [HS|[->|HS]].
    + specialize (Hpre _ HS). lia.
    + lia.
    + apply Hpost, HS.
  - intros Hidx x Hx Heq.
    assert (Hsorted : StronglySorted Z.le (pre ++ K :: post)).
    { rewrite <- Hkeys. apply Object_keys_ascending.
      intros k Hk. apply buildPainMap_keys, in_map_iff in Hk as (y & <- & Hy).
      apply Hidx, Hy. }
    assert (HS : In (strikePrice x) (pre ++ K :: post))
      by (apply Hmem, in_map; exact Hx).
    apply in_app_or in HS as [HS|[->|HS]].
    + specialize (Hpre _ HS). lia.
    + lia.
    + clear -Hsorted HS. induction pre as [|p pre IH]; simpl in Hsorted.
      * apply StronglySorted_inv in Hsorted as [_ Hall].
        rewrite List.Forall_forall in Hall. apply Hall, HS.
      * apply StronglySorted_inv in Hsorted as [Hs _]. apply IH, Hs.
Qed.

Lemma maxPainStrike_none (rows : list OptionRow) :
  (forall x, In x rows -> matches x = false) ->
  maxPainStrike matches rows = None.
Proof.
  intros Hno. pose proof (maxPainStrike_first_max rows) as H.
  destruct (maxPainStrike matches rows) as [K|]; [|reflexivity].
  destruct H as (pre & post & Hkeys & _).
  assert (HK : In K (JS.Object_keys (buildPainMap matches rows)))
    by (rewrite Hkeys; apply in_elt).
  apply Object_keys_In, buildPainMap_keys in HK.
  rewrite (filter_none _ _ Hno) in HK. destruct HK.
Qed.

End MaxPainFacts.

Section CalculateMaxPain.
Import Chain OptionsApi Fixtures.

Lemma someEqb_false (o : option string) (s : string) :
  o <> Some s -> someEqb o s = false.
Proof.
  destruct o as [s'|]; simpl; [|reflexivity].
  intros H. apply String.eqb_neq. congruence.
Qed.

(** C3, as stated, fails: with the rows of the crafted chain given highest
    strike first, strikes 120 and 110 tie at the maximal pain; a stable
    sort of the strikes in input order puts 120 first, the source returns
    110. *)
Lemma calculateMaxPainV3_not_input_order :
  let rows := List.filter (fun x => someEqb (expiryDates x) sep26)
                          (data craftedChainDescending) in
  Spec.maxPainInputOrder rows = Some 120 /\
  calculateMaxPainV3 craftedChainDescending sep26 = 110 /\
  Some (calculateMaxPainV3 craftedChainDescending sep26)
    <> Spec.maxPainInputOrder rows.
Proof. vm_compute. repeat split; discriminate. Qed.

(** C3, amended.  For a payload with at least one row of the target
    expiry, [calculateMaxPainV3] and the dual-schema [calculateMaxPain]
    restrict to the rows of that expiry and return a listed strike [K] of
    maximal [pain(K)], where [pain(K)] is the sum of
    [(K > S) ? -(K - S) * callOI(S) : 0] and of
    [(K < S) ? (K - S) * putOI(S) : 0] over those rows; among the strikes of
    maximal pain the lowest is returned (strikes being whole numbers in
    [0, 2^32 - 2], keys that the pain map lists in ascending order whatever
    the order of the rows).  For strikes 100/110/120 with call open interest
    10/5/0 and put open interest 0/5/15 the result is 110. *)
Theorem calculateMaxPain_spec :
  (forall (optionChain : OptionChainData) (expiry : string),
      let rows := List.filter (fun x => someEqb (expiryDates x) expiry)
                              (data optionChain) in
      rows <> [] ->
      Spec.MaxPainStrike rows (calculateMaxPainV3 optionChain expiry)) /\
  (forall (Date : Type) (formatDateExpiry : Date -> string)
          (optionChain : OptionChainData) (expiryDate : Date),
      let rows :=
        List.filter (fun x => someEqb (orElse (expiryDates x) (Chain.expiryDate x))
                                      (formatDateExpiry expiryDate))
                    (data optionChain) in
      rows <> [] ->
      Spec.MaxPainStrike rows
        (calculateMaxPain Date formatDateExpiry optionChain expiryDate)) /\
  calculateMaxPainV3 craftedChainV3 sep26 = 110 /\
  calculateMaxPain string id craftedChain sep26 = 110 /\
  calculateMaxPainV3 craftedChainDescending sep26 = 110.
Proof.
  split; [|split; [|repeat split]].
  - intros optionChain expiry rows Hne.
    destruct (maxPainStrike_spec _ (data optionChain) Hne) as (K & HK & Hspec).
    unfold calculateMaxPainV3. rewrite HK. exact Hspec.
  - intros Date formatDateExpiry optionChain expiryDate rows Hne.
    destruct (maxPainStrike_spec _ (data optionChain) Hne) as (K & HK & Hspec).
    unfold calculateMaxPain. rewrite HK. exact Hspec.
Qed.

Lemma calculateMaxPain_spec_witness :
  List.filter (fun x => someEqb (expiryDates x) sep26) (data craftedChainV3) <> [] /\
  Spec.MaxPainStrike
    (List.filter (fun x => someEqb (expiryDates x) sep26) (data craftedChainV3))
    110.
Proof.
  split; [discriminate|].
  apply (proj1 calculateMaxPain_spec craftedChainV3 sep26). discriminate.
Defined.

(** C10.  When no row of the payload has the target expiry,
    [calculateMaxPainV3] and the dual-schema [calculateMaxPain] return 0,
    whatever strikes the payload lists. *)
Theorem calculateMaxPain_no_matching_row :
  (forall (optionChain : OptionChainData) (expiry : string),
      (forall x, In x (data optionChain) -> expiryDates x <> Some expiry) ->
      calculateMaxPainV3 optionChain expiry = 0) /\
  (forall (Date : Type) (formatDateExpiry : Date -> string)
          (optionChain : OptionChainData) (expiryDate : Date),
      (forall x, In x (data optionChain) ->
         orElse (expiryDates x) (Chain.expiryDate x)
           <> Some (formatDateExpiry expiryDate)) ->
      calculateMaxPain Date formatDateExpiry optionChain expiryDate = 0).
Proof.
  split.
  - intros optionChain expiry Hno. unfold calculateMaxPainV3.
    rewrite maxPainStrike_none; [reflexivity|].
    intros x Hx. apply someEqb_false, Hno, Hx.
  - intros Date formatDateExpiry optionChain expiryDate Hno. unfold calculateMaxPain.
    rewrite maxPainStrike_none; [reflexivity|].
    intros x Hx. apply someEqb_false, Hno, Hx.
Qed.

(** The crafted chain asked for another expiry: the result is 0, which is
    not one of its strikes. *)
Lemma calculateMaxPain_no_matching_row_witness :
  (forall x, In x (data craftedChainV3) -> expiryDates x <> Some "03-Oct-2025"%string) /\
  calculateMaxPainV3 craftedChainV3 "03-Oct-2025" = 0 /\
  ~ In 0 (map strikePrice (data craftedChainV3)).
Proof.
  assert (H : forall x, In x (data craftedChainV3) ->
                        expiryDates x <> Some "03-Oct-2025"%string).
  { intros x Hx. simpl in Hx.
    destruct Hx as [<-|[<-|[<-|[]]]]; discriminate. }
  split; [exact H|]. split.
  - apply (proj1 calculateMaxPain_no_matching_row craftedChainV3 "03-Oct-2025"%string H).
  - simpl. intros [?|[?|[?|[]]]]; discriminate.
Defined.

End CalculateMaxPain.

(** ** Strike interval and at-the-money strike *)

Section AtmFacts.
Import Chain OptionsApi.

Lemma Set_values_In (l : list Z) (k : Z) : In k (JS.Set_values l) <-> In k l.
Proof.
  induction l as [|x l IH]; simpl; [tauto|].
  rewrite filter_In, IH, negb_true_iff, Z.eqb_neq.
  destruct (Z.eq_dec k x); intuition congruence.
Qed.

Lemma Set_values_NoDup (l : list Z) : List.NoDup (JS.Set_values l).
Proof.
  induction l as [|x l IH]; simpl; constructor.
  - rewrite filter_In, Z.eqb_refl. simpl. intros [_ H]. discriminate.
  - apply List.NoDup_filter, IH.
Qed.

Lemma sort_ascending_Sorted (l : list Z) :
  StronglySorted Z.le (JS.sort_ascending l).
Proof.
  apply Sorted_StronglySorted; [intros a b c; apply Z.le_trans|].
  unfold JS.sort_ascending.
  eapply Sorted_ind with (P := Sorted _);
    [constructor | | apply (sort_Sorted (fun a b => a - b <=? 0))].
  - intros a l' _ IH Hhd. constructor; [exact IH|].
    destruct Hhd as [|b l'' Hab]; constructor.
    apply Z.leb_le in Hab. lia.
  - intros a b H. apply Z.leb_gt in H. apply Z.leb_le. lia.
Qed.

Lemma StronglySorted_NoDup_lt (l : list Z) :
  StronglySorted Z.le l -> List.NoDup l -> Sorted Z.lt l.
Proof.
  induction 1 as [|a l Hs IH Hall]; intros Hnd; [constructor|].
  apply List.NoDup_cons_iff in Hnd as [Hnotin Hnd].
  constructor; [apply IH, Hnd|].
  destruct l as [|b l]; constructor.
  apply List.Forall_inv in Hall.
  assert (a <> b) by (intros ->; apply Hnotin; left; reflexivity). lia.
Qed.

(** The strikes that the compiler sorts: each listed strike once, in
    strictly ascending order. *)
Lemma sortedStrikes_spec (rows : list OptionRow) :
  Sorted Z.lt (sortedStrikes rows) /\
  (forall k, In k (sortedStrikes rows) <-> In k (map strikePrice rows)).
Proof.
  unfold sortedStrikes. split.
  - apply StronglySorted_NoDup_lt; [apply sort_ascending_Sorted|].
    unfold JS.sort_ascending. apply NoDup_ListNoDup.
    rewrite sort_perm. apply NoDup_ListNoDup, Set_values_NoDup.
  - intros k. unfold JS.sort_ascending. rewrite sort_In. apply Set_values_In.
Qed.

Lemma strikeInterval_pos (rows : list OptionRow) : 0 < strikeInterval rows.
Proof.
  unfold strikeInterval. destruct (sortedStrikes_spec rows) as [Hs _].
  destruct (sortedStrikes rows) as [|s0 [|s1 l]]; try lia.
  apply Sorted_inv in Hs as [_ Hhd]. apply HdRel_inv in Hhd. lia.
Qed.

Lemma Math_round_bounds (x : Q) :
  (inject_Z (JS.Math_round x) - (1 # 2) <= x
     < inject_Z (JS.Math_round x) + (1 # 2))%Q.
Proof.
  unfold JS.Math_round.
  pose proof (Qfloor_le (x + (1 # 2))) as Hlo.
  pose proof (Qlt_floor (x + (1 # 2))) as Hhi.
  rewrite inject_Z_plus in Hhi. change (inject_Z 1) with 1%Q in Hhi.
  split; lra.
Qed.

(** No multiple of a positive [m] is nearer to [u] than
    [m * Math.round(u / m)]. *)
Lemma roundToMultiple_nearest (m : Z) (u : Q) (k : Z) :
  0 < m ->
  (Qabs (inject_Z (m * JS.Math_round (u / inject_Z m)) - u)
     <= Qabs (inject_Z (k * m) - u))%Q.
Proof.
  intros Hm.
  set (x := (u / inject_Z m)%Q).
  pose proof (Math_round_bounds x) as [Hlo Hhi].
  set (r := JS.Math_round x) in *.
  assert (HM : (inject_Z 0 < inject_Z m)%Q) by (rewrite <- Zlt_Qlt; exact Hm).
  change (inject_Z 0) with 0%Q in HM.
  assert (Hu : (u == inject_Z m * x)%Q).
  { unfold x. rewrite Qmult_div_r; [reflexivity|]. intros H. rewrite H in HM. lra. }
  rewrite !inject_Z_mult.
  assert (Hk : (inject_Z k <= inject_Z r - 1 \/ inject_Z k == inject_Z r
                \/ inject_Z r + 1 <= inject_Z k)%Q).
  { destruct (Z.lt_trichotomy k r) as [H|[H|H]].
    - left. assert (H' : k <= r + -1) by lia. rewrite Zle_Qle in H'.
      rewrite inject_Z_plus in H'. change (inject_Z (-1)) with (-1)%Q in H'. lra.
    - right; left. subst. reflexivity.
    - right; right. assert (H' : r + 1 <= k) by lia. rewrite Zle_Qle in H'.
      rewrite inject_Z_plus in H'. change (inject_Z 1) with 1%Q in H'. lra. }
  set (M := inject_Z m) in *. set (R := inject_Z r) in *. set (K := inject_Z k) in *.
  apply Qabs_case; intros H1; apply Qabs_case; intros H2; nra.
Qed.

(** The reduction of the filtered view keeps the strike nearest to the
    underlying among those seen. *)
Lemma fold_closer (u : Q) (l : list Z) (acc : Z) :
  let r := fold_left (closer u) l acc in
  (r = acc \/ In r l) /\
  (Qabs (inject_Z r - u) <= Qabs (inject_Z acc - u))%Q /\
  (forall s, In s l -> (Qabs (inject_Z r - u) <= Qabs (inject_Z s - u))%Q).
Proof.
  revert acc. induction l as [|c l IH]; intros acc; simpl.
  - split; [auto|]. split; [apply Qle_refl | intros s []].
  - destruct (IH (closer u acc c)) as (Hin & Hacc & Hall).
    assert (Hc : (closer u acc c = acc \/ closer u acc c = c) /\
                 (Qabs (inject_Z (closer u acc c) - u) <= Qabs (inject_Z acc - u))%Q /\
                 (Qabs (inject_Z (closer u acc c) - u) <= Qabs (inject_Z c - u))%Q).
    { unfold closer.
      destruct (JS.Qltb (Qabs (inject_Z c - u)) (Qabs (inject_Z acc - u))) eqn:Hlt.
      - apply Qltb_lt in Hlt. split; [auto|]. split; [apply Qlt_le_weak, Hlt | apply Qle_refl].
      - split; [auto|]. split; [apply Qle_refl|].
        apply Qnot_lt_le. intros H. apply Qltb_lt in H. congruence. }
    destruct Hc as (Hwho & Hc1 & Hc2).
    split; [|split].
    + destruct Hin as [->|Hin]; [|auto]. destruct Hwho as [->| ->]; auto.
    + eapply Qle_trans; [exact Hacc | exact Hc1].
    + intros s [<-|Hs]; [eapply Qle_trans; [exact Hacc | exact Hc2] | apply Hall, Hs].
Qed.

(** C4.  In the v3 compiler the strikes taken are the distinct listed
    strikes in ascending order; the interval is [strikes[1] - strikes[0]]
    when there are two of them and 50 otherwise, and is positive; [atm] is
    [interval * Math.round(underlying / interval)], a multiple of the
    interval than which no multiple is nearer to the underlying.  The
    filtered view resolves its [atmStrike] as a listed strike than which no
    listed strike is nearer to the underlying (and fails on a payload
    without rows). *)
Theorem strike_interval_and_atm
    (data : OptionChainData) (expiry : string) (strikeRange : Z) :
  let rows := Chain.data data in
  let strikes := sortedStrikes rows in
  let interval := strikeInterval rows in
  let u := underlyingValue data in
  Sorted Z.lt strikes /\
  (forall k, In k strikes <-> In k (map strikePrice rows)) /\
  interval = match strikes with
             | s0 :: s1 :: _ => s1 - s0
             | _ => 50
             end /\
  0 < interval /\
  atm (compileOptionChainV3 data expiry)
    = JS.Num (inject_Z (interval * JS.Math_round (u / inject_Z interval))) /\
  (forall k : Z,
      (Qabs (inject_Z (interval * JS.Math_round (u / inject_Z interval)) - u)
         <= Qabs (inject_Z (k * interval) - u))%Q) /\
  match getFilteredOptionChainV3 data strikeRange with
  | None => rows = []
  | Some view =>
      In (atmStrike view) (map strikePrice rows) /\
      forall x, In x rows ->
        (Qabs (inject_Z (atmStrike view) - u)
           <= Qabs (inject_Z (strikePrice x) - u))%Q
  end.
Proof.
  intros rows strikes interval u.
  pose proof (strikeInterval_pos rows) as Hpos. fold interval in Hpos.
  destruct (sortedStrikes_spec rows) as [Hs Hmem].
  split; [exact Hs|]. split; [exact Hmem|]. split; [reflexivity|].
  split; [exact Hpos|]. split.
  { cbn [atm compileOptionChainV3]. unfold roundToMultiple.
    fold rows interval u. destruct (Z.eqb_spec interval 0); [lia | reflexivity]. }
  split; [intros k; apply roundToMultiple_nearest, Hpos|].
  unfold getFilteredOptionChainV3. fold rows u.
  destruct (JS.Set_values (map strikePrice rows)) as [|s0 l] eqn:Hset; simpl.
  - destruct rows as [|x rows']; [reflexivity|].
    assert (H : In (strikePrice x) (JS.Set_values (map strikePrice (x :: rows'))))
      by (apply Set_values_In; left; reflexivity).
    rewrite Hset in H. destruct H.
  - destruct (fold_closer u l s0) as (Hin & Hacc & Hall). split.
    + apply Set_values_In. rewrite Hset. destruct Hin as [->|Hin]; [left | right]; auto.
    + intros x Hx.
      assert (H : In (strikePrice x) (s0 :: l))
        by (rewrite <- Hset; apply Set_values_In, in_map, Hx).
      destruct H as [<-|H]; [exact Hacc | apply Hall, H].
Qed.

End AtmFacts.

(** ** Put-call ratios *)

Section PcrFacts.
Import Chain OptionsApi Fixtures.

Lemma toFixed2_nearest (q : Q) : (Qabs (JS.toFixed2 q - q) <= 1 # 200)%Q.
Proof.
  assert (Hmk : forall n : Z, (n # 100 == inject_Z n * (1 # 100))%Q).
  { intros n. unfold Qeq. simpl. lia. }
  unfold JS.toFixed2. destruct (Qle_bool 0 q) eqn:Hq.
  - pose proof (Qfloor_le (q * 100 + (1 # 2))) as Hlo.
    pose proof (Qlt_floor (q * 100 + (1 # 2))) as Hhi.
    rewrite inject_Z_plus in Hhi. change (inject_Z 1) with 1%Q in Hhi.
    rewrite Hmk. apply Qabs_Qle_condition. split; lra.
  - pose proof (Qfloor_le (- q * 100 + (1 # 2))) as Hlo.
    pose proof (Qlt_floor (- q * 100 + (1 # 2))) as Hhi.
    rewrite inject_Z_plus in Hhi. change (inject_Z 1) with 1%Q in Hhi.
    rewrite Hmk. apply Qabs_Qle_condition. split; lra.
Qed.

(** The per-strike ratio: [null] when a leg has no open interest, else the
    quotient to the nearest hundredth. *)
Lemma strikePcr_spec (poi coi : Z) :
  match strikePcr poi coi with
  | None => poi = 0 \/ coi = 0
  | Some r =>
      poi <> 0 /\ coi <> 0 /\
      exists q : Q, r = JS.Num q /\
                    (Qabs (q - inject_Z poi / inject_Z coi) <= 1 # 200)%Q
  end.
Proof.
  unfold strikePcr, JS.div.
  destruct (Z.eqb_spec poi 0), (Z.eqb_spec coi 0); simpl; auto.
  split; [assumption|]. split; [assumption|].
  eexists. split; [reflexivity | apply toFixed2_nearest].
Qed.

Lemma compileRows_totals (legChg : OptionLeg -> option Q)
    (keep : OptionRow -> bool) (rows : list OptionRow) (t : Totals) :
  let t' := fold_left (fun t idx => if keep idx then compileRow legChg t idx else t)
                      rows t in
  t_totalCoi t' = t_totalCoi t + Spec.sumZ (map Spec.callOI (List.filter keep rows)) /\
  t_totalPoi t' = t_totalPoi t + Spec.sumZ (map Spec.putOI (List.filter keep rows)).
Proof.
  revert t. induction rows as [|x rows IH]; intros t; simpl; [lia|].
  destruct (IH (if keep x then compileRow legChg t x else t)) as [Hc Hp].
  rewrite Hc, Hp. destruct (keep x); simpl; [|lia].
  unfold Spec.callOI, Spec.putOI. lia.
Qed.

Lemma compileRows_chain (legChg : OptionLeg -> option Q)
    (keep : OptionRow -> bool) (rows : list OptionRow) (t : Totals)
    (k : Z) (e : StrikeEntry) :
  t_chain (fold_left (fun t idx => if keep idx then compileRow legChg t idx else t)
                     rows t) !! k = Some e ->
  t_chain t !! k = Some e \/
  exists x, In x (List.filter keep rows) /\ strikePrice x = k /\
            strike_pcr e = strikePcr (Spec.putOI x) (Spec.callOI x).
Proof.
  revert t. induction rows as [|x rows IH]; intros t; simpl; [auto|].
  intros H. apply IH in H as [H|(y & Hy & Hk & He)].
  - destruct (keep x) eqn:Hkeep; [|auto]. cbn [t_chain compileRow] in H.
    destruct (decide (strikePrice x = k)) as [Heq|Hne].
    + subst k. rewrite lookup_insert_eq in H. injection H as <-.
      right. exists x. simpl. auto.
    + rewrite lookup_insert_ne in H by exact Hne. auto.
  - right. exists y. destruct (keep x); simpl; auto.
Qed.

(** The guarded paths: the chain-level ratio of the v3 compiler is a finite
    number, 0 when no call is open, and every per-strike ratio is [null] or
    a finite number. *)
Lemma compileOptionChainV3_pcr (data : OptionChainData) (expiry : string) :
  let oc := compileOptionChainV3 data expiry in
  coiTotal oc = Spec.sumZ (map Spec.callOI (Chain.data data)) /\
  poiTotal oc = Spec.sumZ (map Spec.putOI (Chain.data data)) /\
  (coiTotal oc = 0 -> pcr oc = JS.Num 0) /\
  (0 < coiTotal oc ->
     exists q : Q, pcr oc = JS.Num q /\
       (Qabs (q - inject_Z (poiTotal oc) / inject_Z (coiTotal oc)) <= 1 # 200)%Q) /\
  (forall (k : Z) (e : StrikeEntry), chain oc !! k = Some e ->
     exists x, In x (Chain.data data) /\ strikePrice x = k /\
               strike_pcr e = strikePcr (Spec.putOI x) (Spec.callOI x)).
Proof.
  intros oc. unfold oc, compileOptionChainV3.
  cbn [coiTotal poiTotal pcr chain].
  set (t := fold_left (compileRow _) (Chain.data data) initTotals).
  assert (Hall : List.filter (fun _ : OptionRow => true) (Chain.data data) = Chain.data data)
    by (apply filter_all; reflexivity).
  pose proof (compileRows_totals (fun l => Some (change l)) (fun _ => true)
                (Chain.data data) initTotals) as Htot.
  rewrite Hall in Htot.
  assert (Hc : t_totalCoi t = Spec.sumZ (map Spec.callOI (Chain.data data)))
    by exact (proj1 Htot).
  assert (Hp : t_totalPoi t = Spec.sumZ (map Spec.putOI (Chain.data data)))
    by exact (proj2 Htot).
  clear Htot. rewrite Hc, Hp.
  set (C := Spec.sumZ (map Spec.callOI (Chain.data data))).
  set (P := Spec.sumZ (map Spec.putOI (Chain.data data))).
  split; [reflexivity|]. split; [reflexivity|]. split; [|split].
  - intros ->. reflexivity.
  - intros HC. destruct (Z.ltb_spec 0 C); [|lia]. unfold JS.div.
    destruct (Z.eqb_spec C 0); [lia|]. simpl.
    eexists. split; [reflexivity | apply toFixed2_nearest].
  - intros k e He.
    destruct (compileRows_chain (fun l => Some (change l)) (fun _ => true)
                (Chain.data data) initTotals k e He) as [He'|He'].
    + cbn in He'. rewrite lookup_empty in He'. discriminate.
    + rewrite Hall in He'. exact He'.
Qed.

(** The legacy compiler computes the same totals and the same per-strike
    ratios, over the rows of the expiry. *)
Lemma legacy_compileOptionChain_totals
    (Date : Type) (formatDateExpiry : Date -> string)
    (data : OptionChainData) (expiryDate : Date) (oc : CompiledOptionChain) :
  LegacyOptionsApi.compileOptionChain Date formatDateExpiry data expiryDate = Some oc ->
  let rows := List.filter (fun x => someEqb (Chain.expiryDate x)
                                            (formatDateExpiry expiryDate))
                          (Chain.data data) in
  coiTotal oc = Spec.sumZ (map Spec.callOI rows) /\
  poiTotal oc = Spec.sumZ (map Spec.putOI rows) /\
  pcr oc = JS.Number_toFixed2 (JS.div (poiTotal oc) (coiTotal oc)) /\
  (forall (k : Z) (e : StrikeEntry), chain oc !! k = Some e ->
     exists x, In x rows /\ strikePrice x = k /\
               strike_pcr e = strikePcr (Spec.putOI x) (Spec.callOI x)).
Proof.
  intros Hoc rows. unfold LegacyOptionsApi.compileOptionChain in Hoc.
  destruct (filtered_data data) as [|r0 [|r1 rest]]; try discriminate.
  injection Hoc as <-. cbn [coiTotal poiTotal pcr chain].
  pose proof (compileRows_totals chg
                (fun x => someEqb (Chain.expiryDate x) (formatDateExpiry expiryDate))
                (Chain.data data) initTotals) as Htot.
  cbv zeta in Htot. destruct Htot as [Hc Hp].
  split; [exact Hc|]. split; [exact Hp|]. split; [reflexivity|].
  intros k e He. apply compileRows_chain in He as [He|He]; [|exact He].
  cbn in He. rewrite lookup_empty in He. discriminate.
Qed.

(** C1.  The v3 compiler guards the chain-level ratio: with no open call
    the ratio is 0.  The legacy compiler divides without a guard: with no
    open call among the rows of the expiry its ratio is [NaN] or an
    infinity, never a number.  On the puts-only chain the v3 ratio is 0 and
    the legacy ratio is [Infinity]; on a chain without open interest the
    legacy ratio is [NaN]. *)
Theorem legacy_pcr_not_guarded :
  (forall (data : OptionChainData) (expiry : string),
      coiTotal (compileOptionChainV3 data expiry) = 0 ->
      pcr (compileOptionChainV3 data expiry) = JS.Num 0) /\
  (forall (Date : Type) (formatDateExpiry : Date -> string)
          (data : OptionChainData) (expiryDate : Date) (oc : CompiledOptionChain),
      LegacyOptionsApi.compileOptionChain Date formatDateExpiry data expiryDate
        = Some oc ->
      coiTotal oc = 0 ->
      pcr oc = JS.NaN \/ pcr oc = JS.Infinity \/ pcr oc = JS.NegInfinity) /\
  pcr (compileOptionChainV3 putsOnlyChainV3 sep26) = JS.Num 0 /\
  pcr <$> LegacyOptionsApi.compileOptionChain string id putsOnlyChain sep26
    = Some JS.Infinity /\
  pcr <$> LegacyOptionsApi.compileOptionChain string id
            (response 105 [] (Chain.filtered_data putsOnlyChain)) sep26
    = Some JS.NaN.
Proof.
  split; [|split; [|repeat split]].
  - intros data expiry. apply compileOptionChainV3_pcr.
  - intros Date formatDateExpiry data expiryDate oc Hoc Hzero.
    unfold LegacyOptionsApi.compileOptionChain in Hoc.
    destruct (filtered_data data) as [|r0 [|r1 rest]]; try discriminate.
    injection Hoc as <-. cbn [coiTotal pcr] in *. rewrite Hzero.
    unfold JS.div. simpl.
    destruct (_ =? 0); [auto|]. destruct (0 <? _); auto.
Qed.

Lemma legacy_pcr_not_guarded_witness :
  (exists oc,
      LegacyOptionsApi.compileOptionChain string id putsOnlyChain sep26 = Some oc /\
      coiTotal oc = 0 /\ pcr oc = JS.Infinity) /\
  coiTotal (compileOptionChainV3 putsOnlyChainV3 sep26) = 0 /\
  pcr (compileOptionChainV3 putsOnlyChainV3 sep26) = JS.Num 0.
Proof.
  split.
  - eexists. split; [reflexivity|]. split; [reflexivity|].
    destruct (proj1 (proj2 legacy_pcr_not_guarded) string id putsOnlyChain sep26 _
                eq_refl eq_refl) as [H|[H|H]];
      [discriminate H | exact H | discriminate H].
  - split; [reflexivity|].
    apply (proj1 legacy_pcr_not_guarded putsOnlyChainV3 sep26). reflexivity.
Defined.

End PcrFacts.

(** ** The symbol parser *)

Section ParserFacts.
Import SymbolParser Fixtures.

Lemma isEmpty_trimStart (s : string) : isEmpty (trimStart s) = isBlank s.
Proof.
  induction s as [|c s IH]; simpl; [reflexivity|].
  destruct (isWhiteSpace c); [exact IH | reflexivity].
Qed.

Lemma isEmpty_trimEnd (s : string) : isEmpty (trimEnd s) = isBlank s.
Proof.
  induction s as [|c s IH]; simpl; [reflexivity|].
  destruct (trimEnd s); simpl in *.
  - rewrite <- IH, andb_true_r. destruct (isWhiteSpace c); reflexivity.
  - rewrite <- IH, andb_false_r. reflexivity.
Qed.

Lemma isBlank_trimStart (s : string) : isBlank (trimStart s) = isBlank s.
Proof.
  induction s as [|c s IH]; simpl; [reflexivity|].
  destruct (isWhiteSpace c) eqn:Hc; simpl; [exact IH | rewrite Hc; reflexivity].
Qed.

Lemma isBlank_trimEnd (s : string) : isBlank (trimEnd s) = isBlank s.
Proof.
  induction s as [|c s IH]; simpl; [reflexivity|].
  destruct (trimEnd s) eqn:Ht; simpl in *.
  - rewrite <- IH, andb_true_r. destruct (isWhiteSpace c) eqn:Hc; simpl; [reflexivity|].
    rewrite Hc. reflexivity.
  - rewrite IH. reflexivity.
Qed.

Lemma isEmpty_trim (s : string) : isEmpty (trim s) = isBlank s.
Proof. unfold trim. rewrite isEmpty_trimEnd. apply isBlank_trimStart. Qed.

Lemma isEmpty_trim_trim (s : string) : isEmpty (trim (trim s)) = isEmpty (trim s).
Proof.
  rewrite (isEmpty_trim (trim s)), isEmpty_trim. unfold trim.
  rewrite isBlank_trimEnd. apply isBlank_trimStart.
Qed.

(** A part of [data.split(' ')] has no space. *)
Lemma splitOnSpace_no_space (s part : string) :
  In part (splitOnSpace s) -> includesSpace part = false.
Proof.
  unfold splitOnSpace. revert part. induction s as [|c s IH]; simpl; intros part.
  - intros [<-|[]]. reflexivity.
  - destruct (Ascii.eqb c " ") eqn:Hc.
    + intros [<-|H]; [reflexivity | apply IH, H].
    + destruct (splitWhere _ s) as [|p0 ps].
      * intros [<-|[]]. simpl. rewrite Hc. reflexivity.
      * intros [<-|H]; [|apply IH; right; exact H].
        simpl. rewrite Hc. apply IH. left. reflexivity.
Qed.

Lemma subTokens_no_space (data part : string) :
  In part (subTokens data) -> includesSpace part = false.
Proof.
  unfold subTokens. intros H. apply filter_In in H as [H _].
  eapply splitOnSpace_no_space, H.
Qed.

Lemma forEach_total {S X : Type} (f : S -> X -> option S) (g : S -> X -> S)
    (xs : list X) (st : S) :
  (forall st x, In x xs -> f st x = Some (g st x)) ->
  forEach f xs st = Some (fold_left g xs st).
Proof.
  revert st. induction xs as [|x xs IH]; intros st H; simpl; [reflexivity|].
  rewrite H by (left; reflexivity). apply IH. intros st' x' Hx'. apply H. right. exact Hx'.
Qed.

Lemma fold_left_ext_in {S X : Type} (f g : S -> X -> S) (xs : list X) (st : S) :
  (forall st x, In x xs -> f st x = g st x) ->
  fold_left f xs st = fold_left g xs st.
Proof.
  revert st. induction xs as [|x xs IH]; intros st H; simpl; [reflexivity|].
  rewrite H by (left; reflexivity). apply IH. intros st' x' Hx'. apply H. right. exact Hx'.
Qed.

(** A call that does not split answers with one unit of fuel. *)
Lemma handleDataRec_leaf (n : nat) (p : Parser) (data : string) :
  has "company_name" p && includesSpace data = false ->
  handleDataRec (S n) p data = Some (dispatch p data).
Proof.
  intros H. unfold dispatch. simpl.
  destruct (negb (start p) || _); [reflexivity|].
  destruct (fields !! index p) as [field|]; [|reflexivity].
  destruct (has field p); [reflexivity|]. rewrite H. reflexivity.
Qed.

Lemma handleDataRec_S (n : nat) (p : Parser) (data : string) :
  handleDataRec (S n) p data =
    if negb (start p) || (length fields <=? index p)%nat then Some p
    else
      match fields !! index p with
      | None => Some p
      | Some field =>
          if has field p then Some p
          else if has "company_name" p && includesSpace data then
            forEach (handleDataRec n) (subTokens data) p
          else
            Some {| result := <[field := trim data]> (result p);
                    start := start p;
                    index := S (index p) |}
      end.
Proof. reflexivity. Qed.

(** A parser that [dispatch] leaves alone stays as it is, whatever the
    tokens. *)
Lemma dispatch_idle (p : Parser) (tokens : list string) :
  (forall data, dispatch p data = p) -> fold_left dispatch tokens p = p.
Proof.
  intros H. induction tokens as [|t tokens IH]; simpl; [reflexivity|].
  rewrite H. exact IH.
Qed.

(** Two units of fuel are enough, and more change nothing: [handleData]
    either dispatches the fragment whole or dispatches its sub-tokens. *)
Lemma handleDataRec_fuel (n : nat) (p : Parser) (data : string) :
  handleDataRec (S (S n)) p data =
    Some (if has "company_name" p && includesSpace data
          then fold_left dispatch (subTokens data) p
          else dispatch p data).
Proof.
  destruct (has "company_name" p && includesSpace data) eqn:Hsplit;
    [|apply handleDataRec_leaf, Hsplit].
  rewrite handleDataRec_S.
  destruct (negb (start p) || (length fields <=? index p)%nat) eqn:Hguard.
  { rewrite dispatch_idle; [reflexivity|].
    intros d. unfold dispatch. rewrite Hguard. reflexivity. }
  destruct (fields !! index p) as [field|] eqn:Hfield.
  2:{ rewrite dispatch_idle; [reflexivity|].
      intros d. unfold dispatch. rewrite Hguard, Hfield. reflexivity. }
  destruct (has field p) eqn:Hhas.
  { rewrite dispatch_idle; [reflexivity|].
    intros d. unfold dispatch. rewrite Hguard, Hfield, Hhas. reflexivity. }
  rewrite Hsplit. apply forEach_total.
  intros st x Hx. apply handleDataRec_leaf.
  rewrite (subTokens_no_space data x Hx). apply andb_false_r.
Qed.

Lemma handleData_eq (p : Parser) (data : string) :
  handleData p data =
    if has "company_name" p && includesSpace data
    then fold_left dispatch (subTokens data) p
    else dispatch p data.
Proof. unfold handleData. rewrite handleDataRec_fuel. reflexivity. Qed.

(** *** Stored values are never empty *)

Lemma dispatch_nonEmpty (p : Parser) (data : string) :
  isEmpty (trim data) = false -> nonEmptyValues p -> nonEmptyValues (dispatch p data).
Proof.
  intros Hdata Hp. unfold dispatch.
  destruct (negb (start p) || _); [exact Hp|].
  destruct (fields !! index p) as [field|]; [|exact Hp].
  destruct (has field p); [exact Hp|].
  unfold nonEmptyValues. simpl. apply map_Forall_insert_2; assumption.
Qed.

Lemma handleData_nonEmpty (p : Parser) (data : string) :
  isEmpty (trim data) = false -> nonEmptyValues p -> nonEmptyValues (handleData p data).
Proof.
  intros Hdata Hp. rewrite handleData_eq.
  destruct (has "company_name" p && includesSpace data);
    [|apply dispatch_nonEmpty; assumption].
  assert (Htok : forall t, In t (subTokens data) -> isEmpty (trim t) = false).
  { intros t Ht. unfold subTokens in Ht. apply filter_In in Ht as [_ Ht].
    apply negb_true_iff, Ht. }
  revert p Hp Htok. induction (subTokens data) as [|t tokens IH]; intros p Hp Htok; simpl.
  - exact Hp.
  - apply IH; [|intros t' Ht'; apply Htok; right; exact Ht'].
    apply dispatch_nonEmpty; [apply Htok; left; reflexivity | exact Hp].
Qed.

Lemma feed_nonEmpty (anchors : list string) (p : Parser) :
  nonEmptyValues p -> nonEmptyValues (feed anchors p).
Proof.
  intros Hp. unfold feed. destruct anchors as [|a anchors]; [exact Hp|].
  set (l := a :: anchors). clearbody l.
  assert (H0 : nonEmptyValues {| result := result p; start := true; index := 0 |})
    by exact Hp.
  revert H0. generalize {| result := result p; start := true; index := 0 |}.
  induction l as [|x l IH]; intros q Hq; simpl; [exact Hq|].
  apply IH. destruct (isEmpty (trim x)) eqn:Hx; [exact Hq|].
  apply handleData_nonEmpty; [|exact Hq].
  rewrite isEmpty_trim_trim. exact Hx.
Qed.

Lemma run_nonEmpty (calls : list Call) : nonEmptyValues (run calls).
Proof.
  unfold run.
  assert (H0 : nonEmptyValues newParser) by apply map_Forall_empty.
  revert H0. generalize newParser.
  induction calls as [|c calls IH]; intros p Hp; simpl; [exact Hp|].
  apply IH. destruct c; simpl.
  - apply feed_nonEmpty, Hp.
  - apply map_Forall_empty.
Qed.

(** C8.  After any sequence of [feed] and [resetData] calls on a new
    parser, [getResult] returns the accumulated record when the symbol
    field has been populated and [null] otherwise; a record with a symbol
    but neither ISIN nor BSE code is returned as it is, and a company
    name alone gives [null]. *)
Theorem getResult_iff_symbol :
  (forall calls : list Call,
      getResult (run calls) =
        if has "symbol" (run calls) then Some (result (run calls)) else None) /\
  getResult (run [Feed ["HDFC Bank Ltd"; "HDFCBANK"]%string])
    = Some {[ "company_name" := "HDFC Bank Ltd"; "symbol" := "HDFCBANK" ]}%string /\
  getResult (run [Feed ["HDFC Bank Ltd"]%string]) = None /\
  getResult (run [Feed hdfcAnchors; ResetData]) = None.
Proof.
  split; [|repeat split; vm_compute; reflexivity].
  intros calls. pose proof (run_nonEmpty calls) as Hinv.
  unfold getResult, has.
  destruct (result (run calls) !! "symbol"%string) as [v|] eqn:Hv; [|reflexivity].
  apply Hinv in Hv. destruct v; [discriminate | reflexivity].
Qed.

Lemma includesSpace_app (a b : string) :
  includesSpace (String.append a b) = includesSpace a || includesSpace b.
Proof.
  induction a as [|c a IH]; [reflexivity|].
  simpl. rewrite IH, orb_assoc. reflexivity.
Qed.

(** C6, as stated, fails: after the company name, a fragment whose symbol
    and ISIN are separated by a tab contains white space but is not split;
    the whole of it becomes the symbol. *)
Lemma handleData_tab_not_split :
  let p := feed ["HDFC Bank Ltd"%string] newParser in
  has "company_name" p = true /\
  trim tabbedFragment = tabbedFragment /\
  Spec.whiteSpaceTokens tabbedFragment = ["HDFCBANK"; "INE040A01034"]%string /\
  result (handleData p tabbedFragment) !! "symbol"%string = Some tabbedFragment /\
  result (handleData p tabbedFragment) !! "isin"%string = None /\
  handleData p tabbedFragment
    <> fold_left handleData (Spec.whiteSpaceTokens tabbedFragment) p.
Proof.
  cbv zeta. repeat split; try (vm_compute; reflexivity).
  intros H. apply (f_equal (fun p => result p !! "isin"%string)) in H.
  vm_compute in H. discriminate.
Qed.

(** C6, amended.  A fragment that contains a space character is
    dispatched as its sub-tokens (the parts between spaces that are not
    blank), each in order, when [company_name] has been populated; a
    fragment is dispatched whole when [company_name] has not been
    populated, and the first fragment of a new feed becomes the company
    name with its spaces.  A fragment without a space character is
    dispatched whole as well, whatever other white space it has: two
    tokens joined by a tab or a line break are one value.  So a fragment
    is split exactly when [company_name] is populated and it has a space
    character, and a fragment dispatched whole to a started parser whose
    current field is unset is stored there, trimmed, in one piece.  The
    recursion ends: two units of fuel or more give the result.  The
    anchors [HDFC Bank Ltd], [HDFCBANK  INE040A01034], [500180] give the
    same four-field record as the four fields fed each in its own
    anchor. *)
Theorem handleData_split_on_space :
  (forall (p : Parser) (data : string),
      has "company_name" p = true -> includesSpace data = true ->
      handleData p data = fold_left handleData (subTokens data) p) /\
  (forall (p : Parser) (data : string),
      has "company_name" p = false -> handleData p data = dispatch p data) /\
  (forall (p : Parser) (data : string),
      includesSpace data = false -> handleData p data = dispatch p data) /\
  (forall (p : Parser) (a b : string) (c : ascii),
      c <> " "%char -> includesSpace a = false -> includesSpace b = false ->
      handleData p (String.append a (String c b))
      = dispatch p (String.append a (String c b))) /\
  (forall (p : Parser) (data : string),
      handleData p data =
        if has "company_name" p && includesSpace data
        then fold_left handleData (subTokens data) p
        else dispatch p data) /\
  (forall (p : Parser) (field data : string),
      start p = true -> fields !! index p = Some field -> has field p = false ->
      has "company_name" p && includesSpace data = false ->
      handleData p data
      = {| result := <[field := trim data]> (result p);
           start := true; index := S (index p) |}) /\
  (forall data : string,
      handleData {| result := ∅; start := true; index := 0 |} data
      = {| result := {[ "company_name"%string := trim data ]};
           start := true; index := 1 |}) /\
  (forall (n : nat) (p : Parser) (data : string),
      handleDataRec (2 + n) p data = Some (handleData p data)) /\
  getResult (feed hdfcCombinedAnchors newParser) = Some hdfcRecord /\
  getResult (feed hdfcAnchors newParser) = Some hdfcRecord.
Proof.
  assert (Hsplit : forall (p : Parser) (data : string),
             has "company_name" p = true -> includesSpace data = true ->
             handleData p data = fold_left handleData (subTokens data) p).
  { intros p data Hcn Hsp. rewrite handleData_eq, Hcn, Hsp. simpl.
    apply fold_left_ext_in. intros st x Hx.
    rewrite handleData_eq, (subTokens_no_space data x Hx), andb_false_r. reflexivity. }
  assert (Hwhole : forall (p : Parser) (data : string),
             includesSpace data = false -> handleData p data = dispatch p data).
  { intros p data Hsp. rewrite handleData_eq, Hsp, andb_false_r. reflexivity. }
  split; [exact Hsplit|]. split; [|split; [exact Hwhole|]].
  { intros p data Hcn. rewrite handleData_eq, Hcn. reflexivity. }
  split; [|split; [|split; [|split; [|split; [|split]]]]].
  - intros p a b c Hc Ha Hb. apply Hwhole. rewrite includesSpace_app, Ha.
    cbn [includesSpace orb]. rewrite Hb, orb_false_r. apply Ascii.eqb_neq, Hc.
  - intros p data. destruct (has "company_name" p) eqn:Hcn;
      destruct (includesSpace data) eqn:Hsp; cbn [andb].
    + apply Hsplit; assumption.
    + apply Hwhole, Hsp.
    + rewrite handleData_eq, Hcn. reflexivity.
    + apply Hwhole, Hsp.
  - intros p field data Hstart Hfield Hhas Hb.
    rewrite handleData_eq, Hb. unfold dispatch.
    pose proof (lookup_lt_Some _ _ _ Hfield) as Hlt.
    rewrite Hstart, Hfield, Hhas.
    destruct (Nat.leb_spec (length fields) (index p)) as [Hle|_]; [lia|].
    reflexivity.
  - intros data. rewrite handleData_eq. reflexivity.
  - intros n p data. simpl plus. rewrite handleDataRec_fuel, handleData_eq. reflexivity.
  - vm_compute. reflexivity.
  - vm_compute. reflexivity.
Qed.

Lemma handleData_split_on_space_witness :
  let p := feed ["HDFC Bank Ltd"%string] newParser in
  has "company_name" p = true /\
  includesSpace "HDFCBANK  INE040A01034" = true /\
  subTokens "HDFCBANK  INE040A01034" = ["HDFCBANK"; "INE040A01034"]%string /\
  handleData p "HDFCBANK  INE040A01034"
    = handleData (handleData p "HDFCBANK") "INE040A01034".
Proof.
  cbv zeta. split; [reflexivity|]. split; [reflexivity|]. split; [reflexivity|].
  apply (proj1 handleData_split_on_space
           (feed ["HDFC Bank Ltd"%string] newParser) "HDFCBANK  INE040A01034");
    reflexivity.
Defined.

End ParserFacts.

(** ** The throttle *)

Section ThrottleFacts.
Import Throttle.

Lemma check_clock (type : ThrottleType) (late : Z) (w : World) :
  clock (check type late w) =
    clock w + (if 0 <? waitTime type w then waitTime type w + late else 0).
Proof.
  unfold check, stamp, delay, elapse.
  destruct (Z.ltb_spec 0 (waitTime type w)); destruct type; simpl; lia.
Qed.

Lemma check_lastRequest (type : ThrottleType) (late : Z) (w : World) :
  lastRequest type (check type late w) = clock (check type late w).
Proof. unfold check, stamp. destruct type; reflexivity. Qed.

Lemma elapse_lastRequest (type : ThrottleType) (ms : Z) (w : World) :
  lastRequest type (elapse ms w) = lastRequest type w.
Proof. destruct type; reflexivity. Qed.

(** C9.  [check(type)] computes
    [waitTime = delay[type] - (now - last[type])], suspends for [waitTime]
    milliseconds when it is positive, and then records the time read after
    the suspension as the last request of the class.  When a second call
    of the class starts after the first has completed, it completes at
    least [delay[type]] milliseconds after the first: 125 for ['default'],
    67 for ['lookup'].  Timers fire on time or late, and the clock does
    not run backwards. *)
Theorem check_spacing (type : ThrottleType) (w : World) (late1 gap late2 : Z) :
  0 <= late1 -> 0 <= gap -> 0 <= late2 ->
  let w1 := check type late1 w in
  let w2 := check type late2 (elapse gap w1) in
  waitTime type w = delayMs (throttleConfig type) - (clock w - lastRequest type w) /\
  clock w1 = clock w + (if 0 <? waitTime type w then waitTime type w + late1 else 0) /\
  lastRequest type w1 = clock w1 /\
  delayMs (throttleConfig type) <= clock w2 - clock w1 /\
  delayMs (throttleConfig Default) = 125 /\
  delayMs (throttleConfig Lookup) = 67.
Proof.
  intros H1 Hg H2 w1 w2.
  split; [reflexivity|]. split; [apply check_clock|].
  split; [apply check_lastRequest|]. split; [|split; reflexivity].
  unfold w2. rewrite check_clock.
  assert (Hwt : waitTime type (elapse gap w1)
                = delayMs (throttleConfig type) - gap).
  { unfold waitTime. rewrite elapse_lastRequest. unfold w1.
    rewrite check_lastRequest. simpl. lia. }
  rewrite Hwt. simpl clock.
  destruct (Z.ltb_spec 0 (delayMs (throttleConfig type) - gap)); lia.
Qed.

(** Two ['default'] calls in a row on a fresh module, the second timer
    firing three milliseconds late. *)
Lemma check_spacing_witness :
  0 <= 0 /\ 0 <= 3 /\
  125 <= clock (check Default 3 (elapse 0 (check Default 0 (initialWorld 1758900600000))))
           - clock (check Default 0 (initialWorld 1758900600000)).
Proof.
  split; [lia|]. split; [lia|].
  exact (proj1 (proj2 (proj2 (proj2
           (check_spacing Default (initialWorld 1758900600000) 0 0 3
              ltac:(lia) ltac:(lia) ltac:(lia)))))).
Defined.

End ThrottleFacts.

(** ** The compiled chain: aggregates *)

Section CompileFacts.
Import Chain OptionsApi.

(** The largest call open interest seen by the loop, and the row where it
    was first seen. *)
Lemma compileRows_maxCoi (legChg : OptionLeg -> option Q) (keep : OptionRow -> bool)
    (rows : list OptionRow) (t : Totals) :
  0 <= t_maxCoi t ->
  let t' := fold_left (fun t idx => if keep idx then compileRow legChg t idx else t)
                      rows t in
  (t_maxCoi t' = t_maxCoi t /\ t_maxCoiStrike t' = t_maxCoiStrike t /\
   forall y, In y (List.filter keep rows) -> Spec.callOI y <= t_maxCoi t) \/
  (exists pre x post,
      List.filter keep rows = pre ++ x :: post /\
      t_maxCoi t' = Spec.callOI x /\ t_maxCoiStrike t' = strikePrice x /\
      t_maxCoi t < Spec.callOI x /\
      (forall y, In y pre -> Spec.callOI y < Spec.callOI x) /\
      (forall y, In y post -> Spec.callOI y <= Spec.callOI x)).
Proof.
  revert t. induction rows as [|r rows IH]; intros t Ht; simpl.
  - left. repeat split. intros y [].
  - destruct (keep r) eqn:Hk; [|apply IH, Ht].
    assert (Hstep : (t_maxCoi (compileRow legChg t r) = t_maxCoi t /\
                     t_maxCoiStrike (compileRow legChg t r) = t_maxCoiStrike t /\
                     Spec.callOI r <= t_maxCoi t) \/
                    (t_maxCoi (compileRow legChg t r) = Spec.callOI r /\
                     t_maxCoiStrike (compileRow legChg t r) = strikePrice r /\
                     t_maxCoi t < Spec.callOI r)).
    { unfold compileRow, Spec.callOI. cbn [t_maxCoi t_maxCoiStrike].
      destruct (CE r) as [leg|]; simpl; [|left; repeat split; lia].
      destruct (Z.ltb_spec (t_maxCoi t) (openInterest leg));
        [right | left]; repeat split; lia. }
    destruct Hstep as [(Hm & Hs & Hle)|(Hm & Hs & Hlt)].
    + destruct (IH (compileRow legChg t r) ltac:(lia)) as [(Hm' & Hs' & Hall)|Hex].
      * left. rewrite Hm', Hs', Hm, Hs. repeat split.
        intros y [<-|Hy]; [exact Hle | rewrite <- Hm; apply Hall, Hy].
      * destruct Hex as (pre & x & post & Hf & Hmx & Hsx & Hgt & Hpre & Hpost).
        right. exists (r :: pre), x, post. rewrite Hf.
        repeat split; try assumption; try lia.
        intros y [<-|Hy]; [lia | apply Hpre, Hy].
    + destruct (IH (compileRow legChg t r) ltac:(lia)) as [(Hm' & Hs' & Hall)|Hex].
      * right. exists [], r, (List.filter keep rows).
        rewrite Hm', Hs', Hm, Hs. repeat split; try lia.
        -- intros y [].
        -- intros y Hy. rewrite <- Hm. apply Hall, Hy.
      * destruct Hex as (pre & x & post & Hf & Hmx & Hsx & Hgt & Hpre & Hpost).
        right. exists (r :: pre), x, post. rewrite Hf.
        repeat split; try assumption; try lia.
        intros y [<-|Hy]; [lia | apply Hpre, Hy].
Qed.

(** The largest put open interest seen by the loop, and the row where it
    was first seen. *)
Lemma compileRows_maxPoi (legChg : OptionLeg -> option Q) (keep : OptionRow -> bool)
    (rows : list OptionRow) (t : Totals) :
  0 <= t_maxPoi t ->
  let t' := fold_left (fun t idx => if keep idx then compileRow legChg t idx else t)
                      rows t in
  (t_maxPoi t' = t_maxPoi t /\ t_maxPoiStrike t' = t_maxPoiStrike t /\
   forall y, In y (List.filter keep rows) -> Spec.putOI y <= t_maxPoi t) \/
  (exists pre x post,
      List.filter keep rows = pre ++ x :: post /\
      t_maxPoi t' = Spec.putOI x /\ t_maxPoiStrike t' = strikePrice x /\
      t_maxPoi t < Spec.putOI x /\
      (forall y, In y pre -> Spec.putOI y < Spec.putOI x) /\
      (forall y, In y post -> Spec.putOI y <= Spec.putOI x)).
Proof.
  revert t. induction rows as [|r rows IH]; intros t Ht; simpl.
  - left. repeat split. intros y [].
  - destruct (keep r) eqn:Hk; [|apply IH, Ht].
    assert (Hstep : (t_maxPoi (compileRow legChg t r) = t_maxPoi t /\
                     t_maxPoiStrike (compileRow legChg t r) = t_maxPoiStrike t /\
                     Spec.putOI r <= t_maxPoi t) \/
                    (t_maxPoi (compileRow legChg t r) = Spec.putOI r /\
                     t_maxPoiStrike (compileRow legChg t r) = strikePrice r /\
                     t_maxPoi t < Spec.putOI r)).
    { unfold compileRow, Spec.putOI. cbn [t_maxPoi t_maxPoiStrike].
      destruct (PE r) as [leg|]; simpl; [|left; repeat split; lia].
      destruct (Z.ltb_spec (t_maxPoi t) (openInterest leg));
        [right | left]; repeat split; lia. }
    destruct Hstep as [(Hm & Hs & Hle)|(Hm & Hs & Hlt)].
    + destruct (IH (compileRow legChg t r) ltac:(lia)) as [(Hm' & Hs' & Hall)|Hex].
      * left. rewrite Hm', Hs', Hm, Hs. repeat split.
        intros y [<-|Hy]; [exact Hle | rewrite <- Hm; apply Hall, Hy].
      * destruct Hex as (pre & x & post & Hf & Hmx & Hsx & Hgt & Hpre & Hpost).
        right. exists (r :: pre), x, post. rewrite Hf.
        repeat split; try assumption; try lia.
        intros y [<-|Hy]; [lia | apply Hpre, Hy].
    + destruct (IH (compileRow legChg t r) ltac:(lia)) as [(Hm' & Hs' & Hall)|Hex].
      * right. exists [], r, (List.filter keep rows).
        rewrite Hm', Hs', Hm, Hs. repeat split; try lia.
        -- intros y [].
        -- intros y Hy. rewrite <- Hm. apply Hall, Hy.
      * destruct Hex as (pre & x & post & Hf & Hmx & Hsx & Hgt & Hpre & Hpost).
        right. exists (r :: pre), x, post. rewrite Hf.
        repeat split; try assumption; try lia.
        intros y [<-|Hy]; [lia | apply Hpre, Hy].
Qed.

(** The entry of a strike in the table is that of the last row of the
    strike. *)
Lemma compileRows_chain_last (legChg : OptionLeg -> option Q) (keep : OptionRow -> bool)
    (rows : list OptionRow) (t : Totals) (k : Z) :
  t_chain (fold_left (fun t idx => if keep idx then compileRow legChg t idx else t)
                     rows t) !! k =
    match list.last (List.filter (fun x => strikePrice x =? k) (List.filter keep rows)) with
    | Some x => t_chain (compileRow legChg initTotals x) !! k
    | None => t_chain t !! k
    end.
Proof.
  revert t. induction rows as [|r rows IH]; intros t; [reflexivity|].
  cbn [fold_left List.filter]. rewrite IH.
  destruct (keep r) eqn:Hk; [|reflexivity].
  cbn [List.filter].
  destruct (Z.eqb_spec (strikePrice r) k) as [Heq|Hne].
  - rewrite last_cons.
    destruct (list.last (List.filter _ (List.filter keep rows))); [reflexivity|].
    cbn [compileRow t_chain]. rewrite Heq, !lookup_insert_eq. reflexivity.
  - destruct (list.last (List.filter _ (List.filter keep rows))); [reflexivity|].
    cbn [compileRow t_chain]. rewrite lookup_insert_ne by exact Hne. reflexivity.
Qed.

(** X1.  In the chain compiled by [compileOptionChainV3], [maxCoi] is the
    strike of the first row whose call open interest is the largest of
    the payload, and 0 when no call is open; [maxPoi] likewise for puts. *)
Theorem compileOptionChainV3_max_open_interest
    (data : OptionChainData) (expiry : string) :
  let oc := compileOptionChainV3 data expiry in
  let rows := Chain.data data in
  ((maxCoi oc = 0 /\ forall y, In y rows -> Spec.callOI y <= 0) \/
   (exists pre x post,
       rows = pre ++ x :: post /\ maxCoi oc = strikePrice x /\
       0 < Spec.callOI x /\
       (forall y, In y pre -> Spec.callOI y < Spec.callOI x) /\
       (forall y, In y post -> Spec.callOI y <= Spec.callOI x))) /\
  ((maxPoi oc = 0 /\ forall y, In y rows -> Spec.putOI y <= 0) \/
   (exists pre x post,
       rows = pre ++ x :: post /\ maxPoi oc = strikePrice x /\
       0 < Spec.putOI x /\
       (forall y, In y pre -> Spec.putOI y < Spec.putOI x) /\
       (forall y, In y post -> Spec.putOI y <= Spec.putOI x))).
Proof.
  intros oc rows.
  assert (Hall : List.filter (fun _ : OptionRow => true) rows = rows)
    by (apply filter_all; reflexivity).
  split.
  - pose proof (compileRows_maxCoi (fun l => Some (change l)) (fun _ => true)
                  rows initTotals ltac:(simpl; lia)) as H.
    cbv zeta in H. rewrite Hall in H.
    destruct H as [(_ & Hs & Hle)|(pre & x & post & Hf & _ & Hs & Hgt & Hpre & Hpost)].
    + left. split; [exact Hs | exact Hle].
    + right. exists pre, x, post. repeat split; assumption.
  - pose proof (compileRows_maxPoi (fun l => Some (change l)) (fun _ => true)
                  rows initTotals ltac:(simpl; lia)) as H.
    cbv zeta in H. rewrite Hall in H.
    destruct H as [(_ & Hs & Hle)|(pre & x & post & Hf & _ & Hs & Hgt & Hpre & Hpost)].
    + left. split; [exact Hs | exact Hle].
    + right. exists pre, x, post. repeat split; assumption.
Qed.

(** X2.  The per-strike table of [compileOptionChainV3] has an entry for
    a strike exactly when a row of the payload has it, and the entry holds
    the open interests, last prices and ratio of the last such row. *)
Theorem compileOptionChainV3_chain_table
    (data : OptionChainData) (expiry : string) (k : Z) :
  match list.last (List.filter (fun x => strikePrice x =? k) (Chain.data data)) with
  | None =>
      chain (compileOptionChainV3 data expiry) !! k = None /\
      ~ In k (map strikePrice (Chain.data data))
  | Some x =>
      In x (Chain.data data) /\ strikePrice x = k /\
      exists e,
        chain (compileOptionChainV3 data expiry) !! k = Some e /\
        oi (ce e) = Spec.callOI x /\ oi (pe e) = Spec.putOI x /\
        Chain.last (ce e) = from_option lastPrice 0%Q (CE x) /\
        Chain.last (pe e) = from_option lastPrice 0%Q (PE x) /\
        strike_pcr e = strikePcr (Spec.putOI x) (Spec.callOI x)
  end.
Proof.
  assert (Hall : List.filter (fun _ : OptionRow => true) (Chain.data data) = Chain.data data)
    by (apply filter_all; reflexivity).
  pose proof (compileRows_chain_last (fun l => Some (change l)) (fun _ => true)
                (Chain.data data) initTotals k) as H.
  rewrite Hall in H. cbn [chain compileOptionChainV3].
  destruct (list.last _) as [x|] eqn:Hl.
  - assert (Hx : In x (List.filter (fun x => strikePrice x =? k) (Chain.data data))).
    { apply list_elem_of_In, last_Some_elem_of, Hl. }
    apply filter_In in Hx as [Hx Hk]. apply Z.eqb_eq in Hk.
    split; [exact Hx|]. split; [exact Hk|].
    eexists. split.
    + etransitivity; [exact H|]. cbn [compileRow t_chain]. rewrite Hk.
      apply lookup_insert_eq.
    + cbn. unfold Spec.callOI, Spec.putOI.
      destruct (CE x), (PE x); repeat split; reflexivity.
  - split.
    + etransitivity; [exact H|]. apply lookup_empty.
    + intros Hin. apply in_map_iff in Hin as (y & Hy & Hin).
      apply last_None in Hl.
      assert (Hf : In y (List.filter (fun x => strikePrice x =? k) (Chain.data data)))
        by (apply filter_In; split; [exact Hin | apply Z.eqb_eq, Hy]).
      rewrite Hl in Hf. destruct Hf.
Qed.

(** X3.  [compileOptionChainV3] adds up the open interest of every row of
    the payload, whatever its expiry; its ratio is 0 when the call total
    is not positive and otherwise within half a hundredth of
    [poiTotal / coiTotal]; [atm] is a finite number and every per-strike
    ratio is a finite number or [null]: nothing the v3 compiler returns is
    [NaN] or infinite. *)
Theorem compileOptionChainV3_numbers (data : OptionChainData) (expiry : string) :
  let oc := compileOptionChainV3 data expiry in
  coiTotal oc = Spec.sumZ (map Spec.callOI (Chain.data data)) /\
  poiTotal oc = Spec.sumZ (map Spec.putOI (Chain.data data)) /\
  (coiTotal oc <= 0 -> pcr oc = JS.Num 0) /\
  (0 < coiTotal oc ->
     exists q : Q, pcr oc = JS.Num q /\
       (Qabs (q - inject_Z (poiTotal oc) / inject_Z (coiTotal oc)) <= 1 # 200)%Q) /\
  (exists a : Q, atm oc = JS.Num a) /\
  (forall (k : Z) (e : StrikeEntry), chain oc !! k = Some e ->
     strike_pcr e = None \/ exists r : Q, strike_pcr e = Some (JS.Num r)).
Proof.
  intros oc.
  destruct (compileOptionChainV3_pcr data expiry) as (Hc & Hp & _ & Hpos & Hch).
  fold oc in Hc, Hp, Hpos, Hch.
  split; [exact Hc|]. split; [exact Hp|]. split; [|split; [exact Hpos|split]].
  - intros Hle. unfold oc in *. unfold compileOptionChainV3 in *.
    cbn [coiTotal pcr] in *.
    match goal with |- context [0 <? ?X] => destruct (Z.ltb_spec 0 X) end;
      [lia | reflexivity].
  - pose proof (strikeInterval_pos (Chain.data data)) as Hi.
    unfold oc, compileOptionChainV3. cbn [atm]. unfold roundToMultiple.
    destruct (Z.eqb_spec (strikeInterval (Chain.data data)) 0); [lia|].
    eexists. reflexivity.
  - intros k e He. destruct (Hch k e He) as (x & _ & _ & Hpcr).
    rewrite Hpcr. pose proof (strikePcr_spec (Spec.putOI x) (Spec.callOI x)) as Hs.
    destruct (strikePcr _ _) as [r|]; [|left; reflexivity].
    destruct Hs as (_ & _ & q & -> & _). right. eexists. reflexivity.
Qed.

End CompileFacts.

(** ** The legacy compiler: failure and [atm] *)

Section LegacyCompileFacts.
Import Chain.

(** The sign of the step does not matter: no multiple of a non-zero [m]
    is nearer to [u] than [m * Math.round(u / m)]. *)
Lemma roundToMultiple_nearest_nonzero (m : Z) (u : Q) (k : Z) :
  m <> 0 ->
  (Qabs (inject_Z (m * JS.Math_round (u / inject_Z m)) - u)
     <= Qabs (inject_Z (k * m) - u))%Q.
Proof.
  intros Hm.
  destruct (Z.lt_trichotomy m 0) as [Hneg|[->|Hpos]];
    [|contradiction | apply roundToMultiple_nearest, Hpos].
  set (x := (u / inject_Z m)%Q).
  pose proof (Math_round_bounds x) as [Hlo Hhi].
  set (r := JS.Math_round x) in *.
  assert (HM : (inject_Z m < inject_Z 0)%Q) by (rewrite <- Zlt_Qlt; exact Hneg).
  change (inject_Z 0) with 0%Q in HM.
  assert (Hu : (u == inject_Z m * x)%Q).
  { unfold x. rewrite Qmult_div_r; [reflexivity|]. intros H. rewrite H in HM. lra. }
  rewrite !inject_Z_mult.
  assert (Hk : (inject_Z k <= inject_Z r - 1 \/ inject_Z k == inject_Z r
                \/ inject_Z r + 1 <= inject_Z k)%Q).
  { destruct (Z.lt_trichotomy k r) as [H|[H|H]].
    - left. assert (H' : k <= r + -1) by lia. rewrite Zle_Qle in H'.
      rewrite inject_Z_plus in H'. change (inject_Z (-1)) with (-1)%Q in H'. lra.
    - right; left. subst. reflexivity.
    - right; right. assert (H' : r + 1 <= k) by lia. rewrite Zle_Qle in H'.
      rewrite inject_Z_plus in H'. change (inject_Z 1) with 1%Q in H'. lra. }
  set (M := inject_Z m) in *. set (R := inject_Z r) in *. set (K := inject_Z k) in *.
  apply Qabs_case; intros H1; apply Qabs_case; intros H2; nra.
Qed.

(** X4.  The legacy [compileOptionChain] fails exactly when
    [filtered.data] has fewer than two rows.  Otherwise its step is the
    first filtered strike minus the second: [atm] is [NaN] when the two
    are equal, and else a multiple of the step than which no multiple is
    nearer to the underlying, whatever the sign of the step. *)
Theorem legacy_compileOptionChain_atm
    (Date : Type) (formatDateExpiry : Date -> string)
    (data : OptionChainData) (expiryDate : Date) :
  match filtered_data data with
  | r0 :: r1 :: _ =>
      exists oc,
        LegacyOptionsApi.compileOptionChain Date formatDateExpiry data expiryDate
          = Some oc /\
        (strikePrice r0 = strikePrice r1 -> atm oc = JS.NaN) /\
        (strikePrice r0 <> strikePrice r1 ->
         exists n : Z,
           atm oc = JS.Num (inject_Z ((strikePrice r0 - strikePrice r1) * n)) /\
           forall k : Z,
             (Qabs (inject_Z ((strikePrice r0 - strikePrice r1) * n)
                      - underlyingValue data)
                <= Qabs (inject_Z (k * (strikePrice r0 - strikePrice r1))
                           - underlyingValue data))%Q)
  | _ =>
      LegacyOptionsApi.compileOptionChain Date formatDateExpiry data expiryDate = None
  end.
Proof.
  unfold LegacyOptionsApi.compileOptionChain.
  destruct (filtered_data data) as [|r0 [|r1 rest]]; try reflexivity.
  eexists. split; [reflexivity|]. cbn [atm]. unfold roundToMultiple. split.
  - intros Heq. rewrite Heq, Z.sub_diag. reflexivity.
  - intros Hne. destruct (Z.eqb_spec (strikePrice r0 - strikePrice r1) 0); [lia|].
    eexists. split; [reflexivity|].
    intros k. apply roundToMultiple_nearest_nonzero. lia.
Qed.

End LegacyCompileFacts.

(** ** Max pain: order of the rows, schemas, sign *)

Section MaxPainMore.
Import Chain OptionsApi Fixtures.

Lemma filter_perm {A : Type} (f : A -> bool) (l l' : list A) :
  l ≡ₚ l' -> List.filter f l ≡ₚ List.filter f l'.
Proof.
  induction 1 as [|x l l' _ IH|x y l|l l' l'' _ IH1 _ IH2]; simpl.
  - reflexivity.
  - destruct (f x); [constructor|]; exact IH.
  - destruct (f x), (f y); try reflexivity. apply Permutation_swap.
  - etransitivity; eassumption.
Qed.

Lemma sumZ_perm (l l' : list Z) : l ≡ₚ l' -> Spec.sumZ l = Spec.sumZ l'.
Proof.
  unfold Spec.sumZ.
  induction 1 as [|x l l' _ IH|x y l|l l' l'' _ IH1 _ IH2]; simpl; lia.
Qed.

Lemma pain_perm (rows rows' : list OptionRow) (K : Z) :
  rows ≡ₚ rows' -> Spec.pain rows K = Spec.pain rows' K.
Proof.
  intros H. unfold Spec.pain.
  f_equal; apply sumZ_perm, Permutation_map, H.
Qed.

Lemma MaxPainStrike_unique (rows rows' : list OptionRow) (K K' : Z) :
  rows ≡ₚ rows' ->
  (forall x, In x rows -> JS.is_array_index (strikePrice x) = true) ->
  Spec.MaxPainStrike rows K -> Spec.MaxPainStrike rows' K' -> K = K'.
Proof.
  intros Hperm Hidx (Hin & Hmax & Hlow) (Hin' & Hmax' & Hlow').
  assert (Hmem : forall x, In x rows <-> In x rows').
  { intros x. rewrite <- !list_elem_of_In, Hperm. reflexivity. }
  apply in_map_iff in Hin as (x & <- & Hx).
  apply in_map_iff in Hin' as (x' & <- & Hx').
  assert (Heq : Spec.pain rows (strikePrice x) = Spec.pain rows (strikePrice x')).
  { apply Z.le_antisymm.
    - rewrite !(pain_perm rows rows' _ Hperm). apply Hmax', Hmem, Hx.
    - apply Hmax, Hmem, Hx'. }
  apply Z.le_antisymm.
  - apply (Hlow Hidx x'); [apply Hmem, Hx' | symmetry; exact Heq].
  - apply (Hlow' (fun y Hy => Hidx y (proj2 (Hmem y) Hy)) x); [apply Hmem, Hx|].
    rewrite <- !(pain_perm rows rows' _ Hperm). exact Heq.
Qed.

(** X5.  The order of the rows does not matter to [calculateMaxPainV3]:
    two payloads with the same rows in any order give the same strike
    (strikes of the expiry being whole numbers from 0 to [2^32 - 2]). *)
Theorem calculateMaxPainV3_row_order
    (chain1 chain2 : OptionChainData) (expiry : string) :
  data chain1 ≡ₚ data chain2 ->
  (forall x, In x (data chain1) -> expiryDates x = Some expiry ->
             JS.is_array_index (strikePrice x) = true) ->
  calculateMaxPainV3 chain1 expiry = calculateMaxPainV3 chain2 expiry.
Proof.
  intros Hperm Hidx. unfold calculateMaxPainV3.
  set (m := fun x => someEqb (expiryDates x) expiry).
  pose proof (filter_perm m _ _ Hperm) as Hf.
  destruct (List.filter m (data chain1)) as [|r rows1] eqn:H1.
  - apply Permutation_nil_l in Hf.
    rewrite !maxPainStrike_none; [reflexivity| |].
    + intros x Hx. destruct (m x) eqn:Hm; [|reflexivity].
      assert (Hin : In x (List.filter m (data chain2))) by (apply filter_In; auto).
      rewrite <- Hf in Hin. destruct Hin.
    + intros x Hx. destruct (m x) eqn:Hm; [|reflexivity].
      assert (Hin : In x (List.filter m (data chain1))) by (apply filter_In; auto).
      rewrite H1 in Hin. destruct Hin.
  - destruct (maxPainStrike_spec m (data chain1)) as (K1 & HK1 & Hs1);
      [rewrite H1; discriminate|].
    destruct (maxPainStrike_spec m (data chain2)) as (K2 & HK2 & Hs2).
    { intros Hnil. rewrite Hnil in Hf. apply Permutation_nil_r in Hf. discriminate. }
    rewrite HK1, HK2. simpl. rewrite H1 in Hs1.
    eapply MaxPainStrike_unique; [exact Hf | | exact Hs1 | exact Hs2].
    intros x Hx. rewrite <- H1 in Hx. apply filter_In in Hx as [Hx Hm].
    apply Hidx; [exact Hx|]. unfold m, someEqb in Hm.
    destruct (expiryDates x) as [s|]; [|discriminate].
    apply String.eqb_eq in Hm. congruence.
Qed.

Lemma calculateMaxPainV3_row_order_witness :
  data craftedChainV3 ≡ₚ data craftedChainDescending /\
  calculateMaxPainV3 craftedChainV3 sep26 = calculateMaxPainV3 craftedChainDescending sep26.
Proof.
  assert (Hperm : data craftedChainV3 ≡ₚ data craftedChainDescending)
    by exact (Permutation_rev (data craftedChainV3)).
  split; [exact Hperm|].
  apply (calculateMaxPainV3_row_order craftedChainV3 craftedChainDescending sep26 Hperm).
  intros x Hx _. simpl in Hx. destruct Hx as [<-|[<-|[<-|[]]]]; reflexivity.
Defined.

Lemma painAt_ext (m1 m2 : OptionRow -> bool) (rows : list OptionRow) (K : Z) :
  (forall x, In x rows -> m1 x = m2 x) -> painAt m1 rows K = painAt m2 rows K.
Proof.
  intros H. unfold painAt. apply fold_left_ext_in.
  intros st x Hx. rewrite (H x Hx). reflexivity.
Qed.

Lemma maxPainStrike_ext (m1 m2 : OptionRow -> bool) (rows : list OptionRow) :
  (forall x, In x rows -> m1 x = m2 x) ->
  maxPainStrike m1 rows = maxPainStrike m2 rows.
Proof.
  intros H. unfold maxPainStrike.
  assert (Hmap : buildPainMap m1 rows = buildPainMap m2 rows).
  { unfold buildPainMap, painMapFrom. apply fold_left_ext_in.
    intros st x Hx. rewrite (H x Hx).
    rewrite (painAt_ext m1 m2 rows _ H). reflexivity. }
  rewrite Hmap. reflexivity.
Qed.

(** X6.  The dual-schema [calculateMaxPain] agrees with
    [calculateMaxPainV3] on a payload whose rows all carry a non-empty
    [expiryDates], and with the legacy [calculateMaxPain] (0 standing for
    its [undefined]) on a payload whose rows carry no [expiryDates]. *)
Theorem calculateMaxPain_schemas
    (Date : Type) (formatDateExpiry : Date -> string)
    (optionChain : OptionChainData) (expiryDate : Date) :
  ((forall x, In x (data optionChain) ->
      exists c s, expiryDates x = Some (String c s)) ->
   calculateMaxPain Date formatDateExpiry optionChain expiryDate
     = calculateMaxPainV3 optionChain (formatDateExpiry expiryDate)) /\
  ((forall x, In x (data optionChain) -> expiryDates x = None) ->
   calculateMaxPain Date formatDateExpiry optionChain expiryDate
     = from_option id 0
         (LegacyOptionsApi.calculateMaxPain Date formatDateExpiry
            optionChain expiryDate)).
Proof.
  split; intros H.
  - unfold calculateMaxPain, calculateMaxPainV3. f_equal.
    apply maxPainStrike_ext. intros x Hx.
    destruct (H x Hx) as (c & s & ->). reflexivity.
  - unfold calculateMaxPain, LegacyOptionsApi.calculateMaxPain. f_equal.
    apply maxPainStrike_ext. intros x Hx. rewrite (H x Hx). reflexivity.
Qed.

Lemma calculateMaxPain_schemas_witness :
  calculateMaxPain string id craftedChainV3 sep26
    = calculateMaxPainV3 craftedChainV3 sep26 /\
  calculateMaxPain string id craftedChain sep26
    = from_option id 0 (LegacyOptionsApi.calculateMaxPain string id craftedChain sep26).
Proof.
  split.
  - apply (proj1 (calculateMaxPain_schemas string id craftedChainV3 sep26)).
    intros x Hx. simpl in Hx.
    destruct Hx as [<-|[<-|[<-|[]]]]; eexists _, _; reflexivity.
  - apply (proj2 (calculateMaxPain_schemas string id craftedChain sep26)).
    intros x Hx. simpl in Hx. destruct Hx as [<-|[<-|[<-|[]]]]; reflexivity.
Defined.

(** X7.  The legacy [calculateMaxPain] returns [undefined] exactly when
    no row has the expiry, and otherwise a strike of a row of the expiry
    whose pain no such strike exceeds; when the strikes of these rows are
    whole numbers from 0 to [2^32 - 2], the keys that an object lists in
    ascending order, it is the lowest strike of maximal pain. *)
Theorem legacy_calculateMaxPain_spec
    (Date : Type) (formatDateExpiry : Date -> string)
    (optionChain : OptionChainData) (expiryDate : Date) :
  let rows := List.filter (fun x => someEqb (Chain.expiryDate x)
                                            (formatDateExpiry expiryDate))
                          (data optionChain) in
  match LegacyOptionsApi.calculateMaxPain Date formatDateExpiry optionChain expiryDate with
  | None => rows = []
  | Some K =>
      rows <> [] /\
      In K (map strikePrice rows) /\
      (forall x, In x rows -> Spec.pain rows (strikePrice x) <= Spec.pain rows K) /\
      ((forall x, In x rows -> JS.is_array_index (strikePrice x) = true) ->
       forall x, In x rows ->
         Spec.pain rows (strikePrice x) = Spec.pain rows K -> K <= strikePrice x)
  end.
Proof.
  intros rows. unfold LegacyOptionsApi.calculateMaxPain.
  set (m := fun x => someEqb (Chain.expiryDate x) (formatDateExpiry expiryDate)).
  fold m in rows. destruct rows as [|r l] eqn:Hr.
  - rewrite maxPainStrike_none; [reflexivity|].
    intros x Hx. destruct (m x) eqn:Hm; [|reflexivity].
    assert (Hin : In x (List.filter m (data optionChain))) by (apply filter_In; auto).
    unfold rows in Hr. rewrite Hr in Hin. destruct Hin.
  - unfold rows in Hr.
    destruct (maxPainStrike_spec m (data optionChain)) as (K & -> & Hs);
      [rewrite Hr; discriminate|].
    rewrite Hr in Hs. split; [discriminate | exact Hs].
Qed.

(** The pains that the calculation compares are never positive when no
    open interest is negative. *)
Lemma pain_nonpositive (rows : list OptionRow) (K : Z) :
  (forall y, In y rows -> 0 <= Spec.callOI y /\ 0 <= Spec.putOI y) ->
  Spec.pain rows K <= 0 /\
  ((forall y, In y rows -> strikePrice y = K) -> Spec.pain rows K = 0).
Proof.
  intros H. unfold Spec.pain, Spec.sumZ.
  induction rows as [|y rows IH]; simpl; [split; [lia | reflexivity]|].
  destruct (H y (or_introl eq_refl)) as [Hc Hp].
  specialize (IH (fun z Hz => H z (or_intror Hz))). destruct IH as [IH1 IH2].
  split.
  - destruct (Z.ltb_spec (strikePrice y) K), (Z.ltb_spec K (strikePrice y)); nia.
  - intros Hall. specialize (IH2 (fun z Hz => Hall z (or_intror Hz))).
    rewrite (Hall y (or_introl eq_refl)), !Z.ltb_irrefl. lia.
Qed.

(** X8.  With no negative open interest, the pain that the inner loop of
    the max-pain calculation computes for a strike is never positive, and
    it is 0 when every row of the expiry is at that strike. *)
Theorem painAt_nonpositive
    (matches : OptionRow -> bool) (rows : list OptionRow) (K : Z) :
  (forall y, In y rows -> matches y = true ->
             0 <= Spec.callOI y /\ 0 <= Spec.putOI y) ->
  painAt matches rows K <= 0 /\
  ((forall y, In y rows -> matches y = true -> strikePrice y = K) ->
   painAt matches rows K = 0).
Proof.
  intros H. rewrite painAt_formula.
  destruct (pain_nonpositive (List.filter matches rows) K) as [H1 H2].
  { intros y Hy. apply filter_In in Hy as [Hy Hm]. apply H; assumption. }
  split; [exact H1|]. intros Hall. apply H2.
  intros y Hy. apply filter_In in Hy as [Hy Hm]. apply Hall; assumption.
Qed.

Lemma painAt_nonpositive_witness :
  painAt (fun _ => true) (data craftedChainV3) 110 <= 0.
Proof.
  apply (painAt_nonpositive (fun _ => true) (data craftedChainV3) 110).
  intros y Hy _. simpl in Hy.
  destruct Hy as [<-|[<-|[<-|[]]]]; vm_compute; split; discriminate.
Defined.

End MaxPainMore.

(** ** The filtered view *)

Section FilteredViewFacts.
Import Chain OptionsApi.

(** The reduction keeps the first of the strikes nearest to the
    underlying. *)
Lemma fold_closer_first (u : Q) (l : list Z) (acc : Z) :
  exists pre post : list Z,
    acc :: l = pre ++ fold_left (closer u) l acc :: post /\
    (forall s, In s pre ->
       (Qabs (inject_Z (fold_left (closer u) l acc) - u) < Qabs (inject_Z s - u))%Q) /\
    (forall s, In s post ->
       (Qabs (inject_Z (fold_left (closer u) l acc) - u) <= Qabs (inject_Z s - u))%Q).
Proof.
  revert acc. induction l as [|c l IH]; intros acc; simpl.
  - exists [], []. split; [reflexivity|]. split; intros s [].
  - unfold closer at 2 4 6.
    destruct (JS.Qltb (Qabs (inject_Z c - u)) (Qabs (inject_Z acc - u))) eqn:Hlt.
    + apply Qltb_lt in Hlt.
      destruct (fold_closer u l c) as (_ & Hle & _).
      destruct (IH c) as (pre & post & Heq & Hpre & Hpost).
      remember (fold_left (closer u) l c) as r eqn:Hr. clear Hr.
      exists (acc :: pre), post. split; [simpl; rewrite <- Heq; reflexivity|].
      split; [|exact Hpost].
      intros s [<-|Hs]; [|apply Hpre, Hs].
      eapply Qle_lt_trans; [exact Hle | exact Hlt].
    + assert (Hge : (Qabs (inject_Z acc - u) <= Qabs (inject_Z c - u))%Q).
      { apply Qnot_lt_le. intros H. apply Qltb_lt in H. congruence. }
      destruct (IH acc) as (pre & post & Heq & Hpre & Hpost).
      remember (fold_left (closer u) l acc) as r eqn:Hr. clear Hr.
      destruct pre as [|p pre].
      * simpl in Heq. injection Heq as Hacc Hl. subst r.
        exists [], (c :: post). split; [simpl; rewrite Hl; reflexivity|].
        split; [intros s []|].
        intros s [<-|Hs]; [exact Hge | apply Hpost, Hs].
      * simpl in Heq. injection Heq as Hp Hl. subst p.
        exists (acc :: c :: pre), post. split; [simpl; rewrite Hl; reflexivity|].
        split; [|exact Hpost].
        intros s [<-|[<-|Hs]].
        -- apply Hpre. left. reflexivity.
        -- eapply Qlt_le_trans; [apply Hpre; left; reflexivity | exact Hge].
        -- apply Hpre. right. exact Hs.
Qed.

(** A list has one first element of least distance. *)
Lemma first_nearest_unique (d : Z -> Q) (pre pre' post post' : list Z) (r r' : Z) :
  pre ++ r :: post = pre' ++ r' :: post' ->
  (forall s, In s pre -> (d r < d s)%Q) -> (forall s, In s post -> (d r <= d s)%Q) ->
  (forall s, In s pre' -> (d r' < d s)%Q) -> (forall s, In s post' -> (d r' <= d s)%Q) ->
  r = r'.
Proof.
  revert pre'. induction pre as [|p pre IH]; intros [|p' pre'] Heq Hpre Hpost Hpre' Hpost';
    simpl in Heq; injection Heq as Hhd Htl.
  - exact Hhd.
  - subst p'. exfalso.
    assert (H1 : (d r' < d r)%Q) by (apply Hpre'; left; reflexivity).
    assert (H2 : (d r <= d r')%Q) by (apply Hpost; rewrite Htl; apply in_elt).
    lra.
  - subst p. exfalso.
    assert (H1 : (d r < d r')%Q) by (apply Hpre; left; reflexivity).
    assert (H2 : (d r' <= d r)%Q) by (apply Hpost'; rewrite <- Htl; apply in_elt).
    lra.
  - apply (IH pre' Htl); auto.
    + intros s Hs. apply Hpre. right. exact Hs.
    + intros s Hs. apply Hpre'. right. exact Hs.
Qed.

Lemma filter_filter {A : Type} (f g : A -> bool) (l : list A) :
  List.filter f (List.filter g l) = List.filter (fun y => g y && f y) l.
Proof.
  induction l as [|y l IH]; simpl; [reflexivity|].
  destruct (g y); simpl; [|exact IH].
  destruct (f y); [f_equal|]; exact IH.
Qed.

Lemma Set_values_app (a b : list Z) :
  JS.Set_values (a ++ b) =
    JS.Set_values a
      ++ List.filter (fun y => negb (existsb (Z.eqb y) a)) (JS.Set_values b).
Proof.
  induction a as [|x a IH]; simpl.
  - symmetry. apply filter_all. reflexivity.
  - f_equal. rewrite IH, List.filter_app, filter_filter. f_equal.
    apply List.filter_ext. intros y. rewrite negb_orb. apply andb_comm.
Qed.

(** Listing each strike once does not change which strike the reduction
    keeps. *)
Lemma reduce_closer_Set_values (u : Q) (l : list Z) :
  JS.reduce1 (closer u) (JS.Set_values l) = JS.reduce1 (closer u) l.
Proof.
  destruct l as [|x l]; [reflexivity|].
  cbn [JS.reduce1 JS.Set_values].
  set (l' := List.filter _ (JS.Set_values l)). f_equal.
  destruct (fold_closer_first u l x) as (pre & post & Heq & Hpre & Hpost).
  destruct (fold_closer_first u l' x) as (pre' & post' & Heq' & Hpre' & Hpost').
  set (r := fold_left (closer u) l x) in *.
  set (r' := fold_left (closer u) l' x) in *.
  assert (Hnotin : ~ In r pre).
  { intros H. specialize (Hpre r H). lra. }
  assert (Hset : JS.Set_values (x :: l) = x :: l') by reflexivity.
  rewrite Heq, Set_values_app in Hset. cbn [JS.Set_values List.filter] in Hset.
  assert (Hex : existsb (Z.eqb r) pre = false).
  { apply not_true_iff_false. intros H. apply existsb_exists in H as (y & Hy & Hry).
    apply Z.eqb_eq in Hry. subst y. contradiction. }
  rewrite Hex in Hset. cbn [negb] in Hset. rewrite Heq' in Hset.
  symmetry. eapply (first_nearest_unique (fun s => Qabs (inject_Z s - u)));
    [exact Hset | | | exact Hpre' | exact Hpost'].
  - intros s Hs. apply Hpre. exact (proj1 (Set_values_In _ _) Hs).
  - intros s Hs. apply filter_In in Hs as [Hs _]. apply filter_In in Hs as [Hs _].
    apply (proj1 (Set_values_In _ _)) in Hs.
    assert (Hin : In s (x :: l)) by (rewrite Heq; apply in_or_app; right; right; exact Hs).
    rewrite Heq in Hin. apply in_app_or in Hin as [Hin|[<-|Hin]].
    + apply Qlt_le_weak, Hpre, Hin.
    + apply Qle_refl.
    + apply Hpost, Hin.
Qed.

(** X9.  The filtered view of [getFilteredOptionChainV3] keeps, in the
    order of the payload, exactly the rows whose strike lies within
    [strikeRange] intervals of the [atmStrike] on either side, and counts
    them; with a non-negative range the rows at the [atmStrike] are kept,
    with a negative one none is. *)
Theorem getFilteredOptionChainV3_window
    (fullData : OptionChainData) (strikeRange : Z) (view : FilteredView) :
  getFilteredOptionChainV3 fullData strikeRange = Some view ->
  let interval := strikeInterval (data fullData) in
  minStrike view = atmStrike view - strikeRange * interval /\
  maxStrike view = atmStrike view + strikeRange * interval /\
  rows view = List.filter (fun x => (minStrike view <=? strikePrice x)
                                      && (strikePrice x <=? maxStrike view))
                          (data fullData) /\
  totalStrikes view = length (rows view) /\
  (forall x, In x (rows view) <->
             In x (data fullData) /\
             Z.abs (strikePrice x - atmStrike view) <= strikeRange * interval) /\
  (0 <= strikeRange ->
   exists x, In x (rows view) /\ strikePrice x = atmStrike view) /\
  (strikeRange < 0 -> rows view = []).
Proof.
  intros Hv interval.
  pose proof (strikeInterval_pos (data fullData)) as Hpos. fold interval in Hpos.
  unfold getFilteredOptionChainV3 in Hv.
  destruct (JS.reduce1 _ (JS.Set_values _)) as [atmK|] eqn:Hred; [|discriminate].
  injection Hv as <-. cbn [minStrike maxStrike atmStrike totalStrikes rows].
  change (match JS.sort_ascending (JS.Set_values (map strikePrice (data fullData))) with
          | s0 :: s1 :: _ => s1 - s0
          | _ => 50
          end) with interval.
  assert (Hrows : forall x,
             In x (List.filter (fun item => (atmK - strikeRange * interval <=? strikePrice item)
                                            && (strikePrice item <=? atmK + strikeRange * interval))
                               (data fullData)) <->
             In x (data fullData) /\
             Z.abs (strikePrice x - atmK) <= strikeRange * interval).
  { intros x. rewrite filter_In, andb_true_iff, !Z.leb_le. intuition lia. }
  split; [reflexivity|]. split; [reflexivity|]. split; [reflexivity|].
  split; [reflexivity|]. split; [exact Hrows|]. split.
  - intros Hn.
    assert (Hin : In atmK (map strikePrice (data fullData))).
    { rewrite reduce_closer_Set_values in Hred.
      destruct (map strikePrice (data fullData)) as [|s0 l]; [discriminate|].
      cbn [JS.reduce1] in Hred. injection Hred as <-.
      destruct (fold_closer (underlyingValue fullData) l s0) as ([->|Hin] & _);
        [left | right]; auto. }
    apply in_map_iff in Hin as (x & Hx & Hin).
    exists x. split; [|exact Hx]. apply Hrows. split; [exact Hin|].
    rewrite Hx, Z.sub_diag. simpl. apply Z.mul_nonneg_nonneg; lia.
  - intros Hn. apply filter_none. intros x _.
    apply andb_false_iff. rewrite !Z.leb_gt. nia.
Qed.

(** X10.  The legacy [getFilteredOptionChain] and
    [getFilteredOptionChainV3] resolve the same [atmStrike] on the same
    payload, the first listed strike among those nearest to the
    underlying; both fail on a payload without rows.  The legacy window is
    [strikeRange] steps of 50 wide on either side, so the two windows have
    the same bounds exactly when [strikeRange] is 0 or the inferred
    interval is 50, and then the two views keep the same rows of the
    payload: the same number of rows, with the same strikes in the same
    order. *)
Theorem filtered_views_atmStrike (fullData : OptionChainData) (strikeRange : Z) :
  match LegacyFilteredView.getFilteredOptionChain fullData strikeRange,
        getFilteredOptionChainV3 fullData strikeRange with
  | Some legacy, Some view =>
      atmStrike legacy = atmStrike view /\
      (exists pre x post,
          data fullData = pre ++ x :: post /\ strikePrice x = atmStrike view /\
          (forall y, In y pre ->
             (Qabs (inject_Z (atmStrike view) - underlyingValue fullData)
                < Qabs (inject_Z (strikePrice y) - underlyingValue fullData))%Q) /\
          (forall y, In y post ->
             (Qabs (inject_Z (atmStrike view) - underlyingValue fullData)
                <= Qabs (inject_Z (strikePrice y) - underlyingValue fullData))%Q)) /\
      minStrike legacy = atmStrike legacy - strikeRange * 50 /\
      maxStrike legacy = atmStrike legacy + strikeRange * 50 /\
      ((minStrike legacy = minStrike view /\ maxStrike legacy = maxStrike view)
       <-> (strikeRange = 0 \/ strikeInterval (data fullData) = 50)) /\
      (strikeRange = 0 \/ strikeInterval (data fullData) = 50 ->
       totalStrikes legacy = totalStrikes view /\
       map strikePrice (rows legacy) = map strikePrice (rows view))
  | None, None => data fullData = []
  | _, _ => False
  end.
Proof.
  unfold LegacyFilteredView.getFilteredOptionChain, getFilteredOptionChainV3.
  rewrite reduce_closer_Set_values.
  destruct (data fullData) as [|x0 rows0] eqn:Hdata; [reflexivity|].
  cbn [map JS.reduce1]. cbn [atmStrike minStrike maxStrike].
  cbn [totalStrikes rows].
  change (strikePrice x0 :: map strikePrice rows0) with (map strikePrice (x0 :: rows0)).
  fold (sortedStrikes (x0 :: rows0)). fold (strikeInterval (x0 :: rows0)).
  set (interval := strikeInterval (x0 :: rows0)).
  set (atmK := fold_left _ _ _).
  assert (Hbounds : strikeRange = 0 \/ interval = 50 ->
                    strikeRange * 50 = strikeRange * interval)
    by (intros [->| ->]; reflexivity).
  split; [reflexivity|].
  split; [|split; [reflexivity|split; [reflexivity|split]]].
  - subst atmK.
    destruct (fold_closer_first (underlyingValue fullData) (map strikePrice rows0)
                (strikePrice x0)) as (pre & post & Heq & Hpre & Hpost).
    set (r := fold_left _ _ _) in *.
    change (strikePrice x0 :: map strikePrice rows0) with (map strikePrice (x0 :: rows0))
      in Heq.
    apply map_eq_app in Heq as (rpre & rrest & Hrows & Hmpre & Hmrest).
    destruct rrest as [|x rpost]; [discriminate|].
    simpl in Hmrest. injection Hmrest as Hx Hmpost.
    exists rpre, x, rpost. split; [exact Hrows|]. split; [exact Hx|]. split.
    + intros y Hy. apply Hpre. rewrite <- Hmpre. apply in_map, Hy.
    + intros y Hy. apply Hpost. rewrite <- Hmpost. apply in_map, Hy.
  - split; [|intros H; rewrite (Hbounds H); split; reflexivity].
    intros [Hlo _].
    assert (Hz : strikeRange * (interval - 50) = 0) by lia.
    apply Z.mul_eq_0 in Hz. lia.
  - intros H. rewrite (Hbounds H). split; reflexivity.
Qed.

Lemma getFilteredOptionChainV3_window_witness :
  exists view,
    getFilteredOptionChainV3 Fixtures.craftedChainV3 1 = Some view /\
    atmStrike view = 110 /\ length (rows view) = 3%nat.
Proof.
  eexists. split; [reflexivity|].
  pose proof (getFilteredOptionChainV3_window Fixtures.craftedChainV3 1 _ eq_refl) as H.
  split; [reflexivity|]. rewrite <- (proj1 (proj2 (proj2 (proj2 H)))). reflexivity.
Defined.

End FilteredViewFacts.

(** ** Gainers and losers: the rows returned *)

Section EquityMore.
Import EquityApi.

Lemma slice0_split {A : Type} (c : Z) (l : list A) :
  exists rest : list A,
    l = JS.slice0 c l ++ rest /\
    Z.of_nat (length (JS.slice0 c l)) =
      if c <? 0 then Z.max 0 (Z.of_nat (length l) + c)
      else Z.min c (Z.of_nat (length l)).
Proof.
  unfold JS.slice0. destruct (Z.ltb_spec c 0).
  - eexists. split; [symmetry; apply take_drop|]. rewrite length_take. lia.
  - eexists. split; [symmetry; apply take_drop|]. rewrite length_take. lia.
Qed.

Lemma StronglySorted_app_order {A : Type} (R : A -> A -> Prop) (a b : list A) :
  StronglySorted R (a ++ b) -> forall x y, In x a -> In y b -> R x y.
Proof.
  induction a as [|z a IH]; simpl; intros Hs x y Hx Hy; [destruct Hx|].
  apply StronglySorted_inv in Hs as [Hs Hall].
  destruct Hx as [<-|Hx]; [|apply IH; assumption].
  rewrite List.Forall_forall in Hall. apply Hall, in_or_app. right. exact Hy.
Qed.


(** A stable sort keeps the order of the elements that compare equal. *)
Lemma sort_keeps_class {A : Type} (before : A -> A -> bool) (p : A -> bool)
    (l : list A) :
  (forall x y, p x = true -> p y = true -> before x y = true) ->
  List.filter p (JS.sort before l) = List.filter p l.
Proof.
  intros Hclass. induction l as [|x l IH]; simpl; [reflexivity|].
  rewrite <- IH. clear IH. induction (JS.sort before l) as [|y s IHs]; simpl.
  - reflexivity.
  - destruct (before x y) eqn:Hxy; simpl; [reflexivity|].
    destruct (p y) eqn:Hy; destruct (p x) eqn:Hx; simpl in *.
    + rewrite (Hclass x y Hx Hy) in Hxy. discriminate.
    + rewrite IHs. reflexivity.
    + exact IHs.
    + exact IHs.
Qed.

(** X11.  [getGainers] without a count returns every row that rose, once
    each, best first.  With a count [c >= 0] it returns the first [c] of
    them (all when there are fewer), and no row left out rose more than a
    row returned.  With a negative count it leaves out the last [-c] of
    them instead.  Rows with the same [pChange] come in the order of the
    input. *)
Theorem getGainers_top (data : list MarketRow) (c : Z) :
  let all := getGainers data None in
  all ≡ₚ List.filter (fun d => JS.Qltb 0 (pChange d)) data /\
  (forall v : Q,
      List.filter (fun d => Qeq_bool (pChange d) v) all =
      List.filter (fun d => Qeq_bool (pChange d) v)
                  (List.filter (fun d => JS.Qltb 0 (pChange d)) data)) /\
  exists rest : list MarketRow,
    all = getGainers data (Some c) ++ rest /\
    Z.of_nat (length (getGainers data (Some c))) =
      (if c <? 0 then Z.max 0 (Z.of_nat (length all) + c)
       else Z.min c (Z.of_nat (length all))) /\
    forall a b, In a (getGainers data (Some c)) -> In b rest ->
                (pChange b <= pChange a)%Q.
Proof.
  intros all. split; [apply sort_perm|]. split.
  { intros v. apply sort_keeps_class. intros x y Hx Hy.
    apply Qeq_bool_iff in Hx, Hy. apply Qle_bool_iff. lra. }
  destruct (slice0_split c all) as (rest & Heq & Hlen).
  exists rest. split; [exact Heq|]. split; [exact Hlen|].
  intros a b Ha Hb.
  apply (StronglySorted_app_order (fun a b => (pChange b <= pChange a)%Q)
           (getGainers data (Some c)) rest); [|exact Ha|exact Hb].
  change (getGainers data (Some c)) with (JS.slice0 c all). rewrite <- Heq.
  apply Sorted_StronglySorted; [|apply (getGainers_sorted data None)].
  intros x y z Hxy Hyz. eapply Qle_trans; eassumption.
Qed.

(** X12.  [getLosers] without a count returns every row that fell, once
    each, worst first.  With a count [c >= 0] it returns the first [c] of
    them, and no row left out fell more than a row returned; with a
    negative count it leaves out the last [-c] of them.  Rows with the same
    [pChange] come in the order of the input. *)
Theorem getLosers_top (data : list MarketRow) (c : Z) :
  let all := getLosers data None in
  all ≡ₚ List.filter (fun d => JS.Qltb (pChange d) 0) data /\
  (forall v : Q,
      List.filter (fun d => Qeq_bool (pChange d) v) all =
      List.filter (fun d => Qeq_bool (pChange d) v)
                  (List.filter (fun d => JS.Qltb (pChange d) 0) data)) /\
  exists rest : list MarketRow,
    all = getLosers data (Some c) ++ rest /\
    Z.of_nat (length (getLosers data (Some c))) =
      (if c <? 0 then Z.max 0 (Z.of_nat (length all) + c)
       else Z.min c (Z.of_nat (length all))) /\
    forall a b, In a (getLosers data (Some c)) -> In b rest ->
                (pChange a <= pChange b)%Q.
Proof.
  intros all. split; [apply sort_perm|]. split.
  { intros v. apply sort_keeps_class. intros x y Hx Hy.
    apply Qeq_bool_iff in Hx, Hy. apply Qle_bool_iff. lra. }
  destruct (slice0_split c all) as (rest & Heq & Hlen).
  exists rest. split; [exact Heq|]. split; [exact Hlen|].
  intros a b Ha Hb.
  apply (StronglySorted_app_order (fun a b => (pChange a <= pChange b)%Q)
           (getLosers data (Some c)) rest); [|exact Ha|exact Hb].
  change (getLosers data (Some c)) with (JS.slice0 c all). rewrite <- Heq.
  apply Sorted_StronglySorted; [|apply (getLosers_sorted data None)].
  intros x y z Hxy Hyz. eapply Qle_trans; eassumption.
Qed.

End EquityMore.

(** ** The throttle: waiting time and runs of calls *)

Section ThrottleMore.
Import Throttle Runs.

(** X13.  A call of [check] whose class was last requested in the past
    completes at once when the interval of the class has elapsed, and
    otherwise no later than the interval plus the lateness of the timer
    after it started; it never completes before it started, and it leaves
    the time of the other class alone. *)
Theorem check_wait_bounds (type other : ThrottleType) (late : Z) (w : World) :
  0 <= late -> lastRequest type w <= clock w ->
  clock w <= clock (check type late w)
    <= clock w + delayMs (throttleConfig type) + late /\
  (delayMs (throttleConfig type) <= clock w - lastRequest type w ->
   clock (check type late w) = clock w) /\
  (clock w - lastRequest type w < delayMs (throttleConfig type) ->
   clock (check type late w) = lastRequest type w + delayMs (throttleConfig type) + late) /\
  (other <> type -> lastRequest other (check type late w) = lastRequest other w).
Proof.
  intros Hlate Hlast. rewrite check_clock. unfold waitTime.
  assert (Hd : 0 < delayMs (throttleConfig type)) by (destruct type; reflexivity).
  split; [|split; [|split]].
  - destruct (Z.ltb_spec 0 (delayMs (throttleConfig type) - (clock w - lastRequest type w)));
      lia.
  - intros H. destruct (Z.ltb_spec 0 (delayMs (throttleConfig type) - (clock w - lastRequest type w)));
      lia.
  - intros H. destruct (Z.ltb_spec 0 (delayMs (throttleConfig type) - (clock w - lastRequest type w)));
      lia.
  - intros Hne. unfold check, stamp, delay, elapse.
    destruct (0 <? waitTime type w); destruct type, other; try reflexivity; congruence.
Qed.

Lemma check_wait_bounds_witness :
  clock (check Default 0 (elapse 40 (check Default 0 (initialWorld 1758900600000))))
    = 1758900600125.
Proof.
  destruct (check_wait_bounds Default Lookup 0
              (elapse 40 (check Default 0 (initialWorld 1758900600000)))
              ltac:(lia) ltac:(vm_compute; discriminate)) as (_ & _ & H & _).
  rewrite H; [reflexivity | vm_compute; reflexivity].
Defined.

Lemma completions_spaced (type : ThrottleType) (calls : list (Z * Z)) (w : World) :
  Forall (fun call => 0 <= fst call /\ 0 <= snd call) calls ->
  lastRequest type w = clock w ->
  Forall (fun t => clock w + delayMs (throttleConfig type) <= t)
         (completions type calls w) /\
  Sorted (fun a b => a + delayMs (throttleConfig type) <= b)
         (completions type calls w).
Proof.
  revert w. induction calls as [|[gap late] calls IH]; intros w Hall Hw; simpl.
  - split; constructor.
  - apply List.Forall_cons_iff in Hall as [[Hgap Hlate] Hall]. simpl in Hgap, Hlate.
    set (w' := check type late (elapse gap w)).
    assert (Hw' : lastRequest type w' = clock w') by apply check_lastRequest.
    assert (Hstep : clock w + delayMs (throttleConfig type) <= clock w').
    { unfold w'. rewrite check_clock. unfold waitTime.
      rewrite elapse_lastRequest, Hw. simpl clock.
      destruct (Z.ltb_spec 0 (delayMs (throttleConfig type) - (clock w + gap - clock w)));
        lia. }
    destruct (IH w' Hall Hw') as [Hfa Hs].
    assert (Hd : 0 < delayMs (throttleConfig type)) by (destruct type; reflexivity).
    split.
    + constructor; [exact Hstep|].
      eapply List.Forall_impl; [|exact Hfa]. simpl. intros t Ht. lia.
    + constructor; [exact Hs|].
      destruct (completions type calls w') as [|t ts]; constructor.
      apply List.Forall_inv in Hfa. exact Hfa.
Qed.

(** X14.  When calls of [check] of one class are made one after the
    other, each completes at least the interval of the class after the one
    before, so [n] calls after a first take at least [n] intervals. *)
Theorem check_run_spacing (type : ThrottleType) (first : Z) (calls : list (Z * Z))
    (w : World) :
  0 <= first ->
  Forall (fun call => 0 <= fst call /\ 0 <= snd call) calls ->
  let w1 := check type first w in
  Sorted (fun a b => a + delayMs (throttleConfig type) <= b)
         (clock w1 :: completions type calls w1) /\
  forall t, list.last (clock w1 :: completions type calls w1) = Some t ->
            clock w1 + Z.of_nat (length calls) * delayMs (throttleConfig type) <= t.
Proof.
  intros Hfirst Hall w1.
  assert (Hw1 : lastRequest type w1 = clock w1) by apply check_lastRequest.
  destruct (completions_spaced type calls w1 Hall Hw1) as [Hfa Hs].
  split.
  - constructor; [exact Hs|].
    destruct (completions type calls w1) as [|t ts]; constructor.
    apply List.Forall_inv in Hfa. exact Hfa.
  - clear Hfa Hs. revert Hw1. generalize w1. clear w1.
    induction calls as [|[gap late] calls IH]; intros w1 Hw1 t Ht.
    + simpl in Ht. injection Ht as <-. simpl. lia.
    + apply List.Forall_cons_iff in Hall as [[Hgap Hlate] Hall]. simpl in Hgap, Hlate.
      cbn [completions] in Ht. rewrite last_cons_cons in Ht.
      set (w' := check type late (elapse gap w1)) in *.
      assert (Hw' : lastRequest type w' = clock w') by apply check_lastRequest.
      specialize (IH Hall w' Hw' t Ht).
      assert (Hstep : clock w1 + delayMs (throttleConfig type) <= clock w').
      { unfold w'. rewrite check_clock. unfold waitTime.
        rewrite elapse_lastRequest, Hw1. simpl clock.
        destruct (Z.ltb_spec 0 (delayMs (throttleConfig type) - (clock w1 + gap - clock w1)));
          lia. }
      rewrite length_cons, Nat2Z.inj_succ. lia.
Qed.

Lemma check_run_spacing_witness :
  0 <= 0 /\
  list.last (completions Default [(0, 0); (10, 2); (300, 0)]
               (check Default 0 (initialWorld 1758900600000)))
    = Some 1758900600552 /\
  1758900600000 + 3 * 125 <= 1758900600552.
Proof.
  split; [lia|]. split; [reflexivity|].
  exact (proj2 (check_run_spacing Default 0 [(0, 0); (10, 2); (300, 0)]
                  (initialWorld 1758900600000) ltac:(lia)
                  ltac:(repeat constructor; simpl; lia))
               1758900600552 eq_refl).
Defined.

End ThrottleMore.

(** ** The symbol parser: what a feed stores *)

Section ParserMore.
Import SymbolParser Runs Fixtures.

Lemma fields_NoDup : NoDup fields.
Proof.
  unfold fields.
  repeat (apply NoDup_cons; split;
          [intros H; repeat (apply elem_of_cons in H as [H|H]; [discriminate|]);
           inversion H|]).
  apply NoDup_nil. exact I.
Qed.

(** [feed] dispatches the texts of the anchors that have one. *)
Lemma feed_texts (anchors : list string) (p : Parser) :
  feed anchors p =
    match anchors with
    | [] => p
    | _ => fold_left handleData
             (List.filter (fun t => negb (isEmpty t)) (map trim anchors))
             {| result := result p; start := true; index := 0 |}
    end.
Proof.
  unfold feed. destruct anchors as [|a anchors]; [reflexivity|].
  generalize {| result := result p; start := true; index := 0 |}.
  generalize (a :: anchors). clear.
  induction l as [|x l IH]; intros q; simpl; [reflexivity|].
  rewrite IH. destruct (isEmpty (trim x)); reflexivity.
Qed.

Lemma filled_has (n : nat) (p : Parser) (i : nat) (field : string) :
  filled n p -> fields !! i = Some field ->
  has field p = if (i <? n)%nat then true else false.
Proof.
  intros (_ & _ & _ & Hdom) Hi. unfold has.
  destruct (Nat.ltb_spec i n) as [Hlt|Hge].
  - destruct (proj2 (Hdom field) (ex_intro _ i (conj Hlt Hi))) as [v ->]. reflexivity.
  - destruct (result p !! field) as [v|] eqn:Hv; [|reflexivity].
    destruct (proj1 (Hdom field) (ex_intro _ v Hv)) as (j & Hj & Hjf).
    pose proof (NoDup_lookup _ _ _ _ fields_NoDup Hi Hjf). lia.
Qed.

(** One token more: it goes to field [n] when there is one. *)
Lemma dispatch_filled (n : nat) (p : Parser) (data : string) :
  filled n p ->
  filled (Nat.min 4 (S n)) (dispatch p data) /\
  forall (i : nat) (field : string),
    fields !! i = Some field ->
    result (dispatch p data) !! field =
      if (i =? n)%nat then Some (trim data) else result p !! field.
Proof.
  intros Hf. pose proof Hf as (Hn & Hstart & Hidx & Hdom).
  unfold dispatch. rewrite Hstart, Hidx.
  change (negb true || (length fields <=? n)%nat) with (4 <=? n)%nat.
  destruct (Nat.leb_spec 4 n) as [Hge|Hlt].
  - replace (Nat.min 4 (S n)) with n by lia. split; [exact Hf|].
    intros i field Hi. destruct (Nat.eqb_spec i n) as [->|]; [|reflexivity].
    apply lookup_lt_Some in Hi. simpl in Hi. lia.
  - replace (Nat.min 4 (S n)) with (S n) by lia.
    destruct (fields !! n) as [fieldN|] eqn:HN.
    2:{ apply lookup_ge_None in HN. simpl in HN. lia. }
    rewrite (filled_has n p n fieldN Hf HN), Nat.ltb_irrefl.
    split.
    + split; [lia|]. split; [reflexivity|]. split; [reflexivity|]. cbn [result].
      intros k. rewrite lookup_insert_is_Some. split.
      * intros [<-|[Hne Hk]]; [exists n; split; [lia | exact HN]|].
        apply Hdom in Hk as (i & Hi & Hik). exists i. split; [lia | exact Hik].
      * intros (i & Hi & Hik).
        destruct (decide (fieldN = k)) as [Heq|Hne]; [left; exact Heq|].
        right. split; [exact Hne|]. apply Hdom. exists i. split; [|exact Hik].
        destruct (decide (i = n)) as [->|]; [congruence | lia].
    + intros i field Hi. cbn [result]. destruct (Nat.eqb_spec i n) as [->|Hne].
      * assert (field = fieldN) by congruence. subst. apply lookup_insert_eq.
      * apply lookup_insert_ne. intros Heq. subst.
        apply Hne. exact (NoDup_lookup _ _ _ _ fields_NoDup Hi HN).
Qed.

(** A run of tokens: token [j] goes to field [n + j]. *)
Lemma dispatch_tokens (tokens : list string) (n : nat) (p : Parser) :
  filled n p ->
  filled (Nat.min 4 (n + length tokens)) (fold_left dispatch tokens p) /\
  forall (i : nat) (field : string),
    fields !! i = Some field ->
    result (fold_left dispatch tokens p) !! field =
      if (i <? n)%nat then result p !! field else trim <$> tokens !! (i - n)%nat.
Proof.
  revert n p. induction tokens as [|t tokens IH]; intros n p Hf.
  - pose proof Hf as (Hn & _ & _ & Hdom). cbn [fold_left length].
    replace (Nat.min 4 (n + 0)) with n by lia. split; [exact Hf|].
    intros i field Hi. destruct (Nat.ltb_spec i n) as [Hlt|Hge]; [reflexivity|].
    rewrite lookup_nil. cbn [fmap option_fmap option_map]. destruct (result p !! field) as [v|] eqn:Hv; [|reflexivity].
    destruct (proj1 (Hdom field) (ex_intro _ v Hv)) as (j & Hj & Hjf).
    pose proof (NoDup_lookup _ _ _ _ fields_NoDup Hi Hjf). lia.
  - pose proof Hf as (Hn & _).
    destruct (dispatch_filled n p t Hf) as [Hf' Hres].
    destruct (IH _ _ Hf') as [Hf'' Hres'']. simpl fold_left. split.
    + replace (Nat.min 4 (n + length (t :: tokens)))
        with (Nat.min 4 (Nat.min 4 (S n) + length tokens)) by (cbn [length]; lia).
      exact Hf''.
    + intros i field Hi. rewrite (Hres'' i field Hi), (Hres i field Hi).
      assert (Hi4 : (i < 4)%nat) by (apply lookup_lt_Some in Hi; exact Hi).
      destruct (Nat.ltb_spec i (Nat.min 4 (S n))), (Nat.ltb_spec i n),
               (Nat.eqb_spec i n); try lia; try reflexivity.
      * subst i. rewrite Nat.sub_diag. reflexivity.
      * replace (i - n)%nat with (S (i - Nat.min 4 (S n))) by lia. reflexivity.
Qed.

Lemma dispatch_has_company (p : Parser) (data : string) :
  has "company_name" p = true -> has "company_name" (dispatch p data) = true.
Proof.
  intros H. unfold dispatch.
  destruct (negb (start p) || _); [exact H|].
  destruct (fields !! index p) as [field|]; [|exact H].
  destruct (has field p) eqn:Hf; [exact H|].
  unfold has in *. cbn [result].
  destruct (decide (field = "company_name"%string)) as [->|Hne].
  - rewrite lookup_insert_eq. reflexivity.
  - rewrite lookup_insert_ne by exact Hne. exact H.
Qed.

Lemma dispatch_tokens_has_company (tokens : list string) (p : Parser) :
  has "company_name" p = true ->
  has "company_name" (fold_left dispatch tokens p) = true.
Proof.
  revert p. induction tokens as [|t tokens IH]; intros p H; simpl; [exact H|].
  apply IH, dispatch_has_company, H.
Qed.

(** After the company name every text is dispatched as its later
    tokens. *)
Lemma handleData_later (texts : list string) (p : Parser) :
  has "company_name" p = true ->
  fold_left handleData texts p =
    fold_left dispatch (concat (map laterTokens texts)) p.
Proof.
  revert p. induction texts as [|t texts IH]; intros p H; simpl; [reflexivity|].
  rewrite fold_left_app.
  assert (Hstep : handleData p t = fold_left dispatch (laterTokens t) p).
  { rewrite handleData_eq, H. unfold laterTokens. simpl.
    destruct (includesSpace t); reflexivity. }
  rewrite Hstep. apply IH. apply dispatch_tokens_has_company, H.
Qed.

Lemma filled_start : filled 0 {| result := ∅; start := true; index := 0 |}.
Proof.
  split; [lia|]. split; [reflexivity|]. split; [reflexivity|].
  intros k. cbn [result]. rewrite lookup_empty. split.
  - intros [v Hv]. discriminate.
  - intros (i & Hi & _). lia.
Qed.

(** One feed of a new parser dispatches the tokens of the anchors. *)
Lemma feed_new_tokens (anchors : list string) :
  result (feed anchors newParser) =
  result (fold_left dispatch (tokensOf anchors)
                    {| result := ∅; start := true; index := 0 |}) /\
  index (feed anchors newParser) =
  index (fold_left dispatch (tokensOf anchors)
                   {| result := ∅; start := true; index := 0 |}).
Proof.
  rewrite feed_texts. unfold tokensOf.
  destruct anchors as [|a anchors]; [split; reflexivity|].
  cbn [result newParser].
  destruct (List.filter _ (map trim (a :: anchors))) as [|t texts];
    [split; reflexivity|].
  cbn [fold_left].
  assert (H1 : handleData {| result := ∅; start := true; index := 0 |} t
               = dispatch {| result := ∅; start := true; index := 0 |} t).
  { rewrite handleData_eq. reflexivity. }
  rewrite H1, handleData_later; [split; reflexivity|]. reflexivity.
Qed.

(** X15.  One [feed] of a new parser stores the tokens of the anchors in
    the order of the fields: the text of the first anchor that has one is
    the company name, whole; each later text gives its sub-tokens if it
    has a space and itself otherwise; token [i], trimmed, is field [i],
    and a field without a token stays unset.  Tokens after the fourth are
    dropped. *)
Theorem feed_fields (anchors : list string) :
  (forall (i : nat) (field : string),
      fields !! i = Some field ->
      result (feed anchors newParser) !! field = trim <$> tokensOf anchors !! i) /\
  (forall k : string,
      is_Some (result (feed anchors newParser) !! k) -> k ∈ fields) /\
  index (feed anchors newParser) = Nat.min 4 (length (tokensOf anchors)).
Proof.
  destruct (feed_new_tokens anchors) as [Hr Hi]. rewrite Hr, Hi.
  destruct (dispatch_tokens (tokensOf anchors) 0 _ filled_start)
    as [(_ & _ & Hidx & Hdom) Hres].
  split; [|split].
  - intros i field Hf. rewrite (Hres i field Hf). simpl.
    rewrite Nat.sub_0_r. reflexivity.
  - intros k Hk. apply Hdom in Hk as (i & _ & Hik).
    eapply list_elem_of_lookup_2, Hik.
  - exact Hidx.
Qed.

Lemma feed_fields_witness :
  result (feed hdfcCombinedAnchors newParser) !! "isin"%string = Some "INE040A01034"%string.
Proof.
  rewrite (proj1 (feed_fields hdfcCombinedAnchors) 2%nat "isin"%string eq_refl).
  reflexivity.
Defined.

(** A parser rewound to the first field while it has a company name
    takes no text: every dispatch finds the field set. *)
Lemma handleData_rewound (texts : list string) (p : Parser) :
  has "company_name" p = true ->
  fold_left handleData texts {| result := result p; start := true; index := 0 |}
    = {| result := result p; start := true; index := 0 |}.
Proof.
  intros Hcn.
  set (q := {| result := result p; start := true; index := 0 |}).
  assert (Hidle : forall data, dispatch q data = q).
  { assert (Hq : has "company_name" q = true) by exact Hcn.
    intros data. unfold dispatch.
    change (negb (start q) || (length fields <=? index q)%nat) with false.
    change (fields !! index q) with (Some "company_name"%string).
    cbv iota. rewrite Hq. reflexivity. }
  induction texts as [|t texts IH]; [reflexivity|].
  cbn [fold_left]. rewrite handleData_eq.
  destruct (has "company_name" q && includesSpace t).
  - rewrite dispatch_idle by exact Hidle. exact IH.
  - rewrite Hidle. exact IH.
Qed.

(** X16.  [feed] does not resume: on a parser that has a company name a
    further [feed] stores nothing and changes no field; it only rewinds
    the index.  A record is built by one [feed] after [resetData]. *)
Theorem feed_after_company_name (anchors : list string) (p : Parser) :
  has "company_name" p = true ->
  feed anchors p =
    match anchors with
    | [] => p
    | _ => {| result := result p; start := true; index := 0 |}
    end.
Proof.
  intros Hcn. rewrite feed_texts. destruct anchors as [|a anchors]; [reflexivity|].
  apply handleData_rewound, Hcn.
Qed.

Lemma feed_after_company_name_witness :
  getResult (feed ["Other Ltd"; "OTHER"]%string (feed hdfcAnchors newParser))
    = Some hdfcRecord.
Proof.
  rewrite (feed_after_company_name ["Other Ltd"; "OTHER"]%string
             (feed hdfcAnchors newParser) eq_refl).
  vm_compute. reflexivity.
Defined.

Lemma feed_filled (anchors : list string) (p : Parser) :
  (exists n, (n <= 4)%nat /\
     forall k, is_Some (result p !! k) <->
               exists i : nat, (i < n)%nat /\ fields !! i = Some k) ->
  exists n, (n <= 4)%nat /\
    forall k, is_Some (result (feed anchors p) !! k) <->
              exists i : nat, (i < n)%nat /\ fields !! i = Some k.
Proof.
  intros (n & Hn & Hdom). destruct anchors as [|a anchors]; [exists n; auto|].
  destruct n as [|n].
  - assert (Hempty : result p = ∅).
    { apply map_eq. intros k. rewrite lookup_empty.
      destruct (result p !! k) as [v|] eqn:Hv; [|reflexivity].
      destruct (proj1 (Hdom k) (ex_intro _ v Hv)) as (i & Hi & _). lia. }
    assert (Hfeed : feed (a :: anchors) p = feed (a :: anchors) newParser).
    { rewrite !feed_texts. rewrite Hempty. reflexivity. }
    rewrite Hfeed. destruct (feed_new_tokens (a :: anchors)) as [-> _].
    destruct (dispatch_tokens (tokensOf (a :: anchors)) 0 _ filled_start)
      as [(Hm & _ & _ & Hdom') _].
    eexists. split; [exact Hm | exact Hdom'].
  - assert (Hcn : has "company_name" p = true).
    { unfold has. destruct (proj2 (Hdom "company_name"%string)) as [v ->];
        [exists 0%nat; split; [lia | reflexivity] | reflexivity]. }
    rewrite feed_texts, (handleData_rewound _ _ Hcn). exists (S n). auto.
Qed.

(** X17.  After any sequence of [feed] and [resetData] calls the record
    has the first [n] fields, for some [n] up to four, and no other
    property: there is no ISIN without a symbol and no symbol without a
    company name, so a record that [getResult] returns has both. *)
Theorem run_fields_prefix (calls : list Call) :
  (exists n : nat, (n <= 4)%nat /\
     forall k : string,
       is_Some (result (run calls) !! k) <->
       exists i : nat, (i < n)%nat /\ fields !! i = Some k) /\
  (forall r, getResult (run calls) = Some r ->
             is_Some (r !! "company_name"%string) /\ is_Some (r !! "symbol"%string)).
Proof.
  assert (Hprefix : exists n : nat, (n <= 4)%nat /\
            forall k : string,
              is_Some (result (run calls) !! k) <->
              exists i : nat, (i < n)%nat /\ fields !! i = Some k).
  { unfold run.
    assert (H0 : exists n : nat, (n <= 4)%nat /\
              forall k : string,
                is_Some (result newParser !! k) <->
                exists i : nat, (i < n)%nat /\ fields !! i = Some k).
    { exists 0%nat. split; [lia|]. intros k. cbn [result newParser].
      rewrite lookup_empty. split; [intros [v Hv]; discriminate|].
      intros (i & Hi & _). lia. }
    revert H0. generalize newParser.
    induction calls as [|c calls IH]; intros p Hp; [exact Hp|].
    cbn [fold_left]. apply IH. destruct c as [anchors|]; cbn [call].
    - apply feed_filled, Hp.
    - exists 0%nat. split; [lia|]. intros k. cbn [result resetData newParser].
      rewrite lookup_empty. split; [intros [v Hv]; discriminate|].
      intros (i & Hi & _). lia. }
  split; [exact Hprefix|].
  destruct Hprefix as (n & Hn & Hdom). intros r Hr. unfold getResult in Hr.
  destruct (result (run calls) !! "symbol"%string) as [[|c s]|] eqn:Hs;
    try discriminate.
  injection Hr as <-.
  destruct (proj1 (Hdom "symbol"%string) (ex_intro _ _ Hs)) as (i & Hi & Hif).
  assert (i = 1%nat)
    by (exact (NoDup_lookup fields i 1%nat _ fields_NoDup Hif eq_refl)).
  subst i. split.
  - apply Hdom. exists 0%nat. split; [lia | reflexivity].
  - rewrite Hs. eexists. reflexivity.
Qed.

End ParserMore.

(** ** The lot-size file *)

Section FnoLotsFacts.
Import FnoLots.
Variable Number : string -> JS.jsnum.

Lemma readLots_snoc (lines : list string) (line : string) :
  readLots Number (lines ++ [line]) =
    match entryOf Number line with
    | Some (sym, lot) => setLot sym lot (readLots Number lines)
    | None => readLots Number lines
    end.
Proof. unfold readLots. rewrite fold_left_app. reflexivity. Qed.

Lemma entryOf_symbol (line sym : string) (lot : Q) :
  entryOf Number line = Some (sym, lot) -> SymbolParser.isEmpty sym = false.
Proof.
  unfold entryOf. destruct (_ <? 4)%nat; [discriminate|].
  destruct (_ !! 1%nat) as [c1|]; [|discriminate].
  destruct (_ !! 3%nat) as [c3|]; [|discriminate].
  destruct (Number _); try discriminate.
  destruct (SymbolParser.isEmpty (SymbolParser.trim c1)) eqn:He; [discriminate|].
  intros H. injection H as <- _. exact He.
Qed.

(** X18.  In the lots that [getFnoLots] reads, the lot of a symbol is
    that of the last line that names it among the lines with four cells
    or more, a symbol in the second and a finite number in the fourth;
    every other line is skipped, no key is empty, and [__proto__] is
    never a key. *)
Theorem getFnoLots_last_line_wins (res : option string) (text sym : string) :
  let lines := splitLines (SymbolParser.trim (chooseCsv res text)) in
  let lots := getFnoLots Number res text in
  (sym <> "__proto__"%string ->
   lots !! sym =
     snd <$> list.last (List.filter (fun e => String.eqb (fst e) sym)
                                    (omap (entryOf Number) lines))) /\
  lots !! "__proto__"%string = None /\
  (is_Some (lots !! sym) -> SymbolParser.isEmpty sym = false).
Proof.
  intros lines lots. unfold lots, getFnoLots. fold lines.
  induction lines as [|line lines' IH] using rev_ind.
  - cbn. rewrite !lookup_empty. repeat split; try reflexivity.
    intros [v Hv]. discriminate.
  - destruct IH as (IH1 & IH2 & IH3).
    rewrite readLots_snoc, omap_app, List.filter_app. cbn [omap list_omap].
    destruct (entryOf Number line) as [[s lot]|] eqn:He.
    2:{ cbn [List.filter]. rewrite app_nil_r. auto. }
    cbn [List.filter fst]. unfold setLot.
    destruct (String.eqb_spec s "__proto__") as [->|Hproto].
    + repeat split; [|exact IH2|exact IH3].
      intros Hsym. destruct (String.eqb_spec "__proto__" sym); [congruence|].
      rewrite app_nil_r. apply IH1, Hsym.
    + repeat split.
      * intros Hsym. destruct (String.eqb_spec s sym) as [->|Hne].
        -- rewrite lookup_insert_eq, last_snoc. reflexivity.
        -- rewrite lookup_insert_ne by exact Hne. rewrite app_nil_r. apply IH1, Hsym.
      * rewrite lookup_insert_ne by exact Hproto. exact IH2.
      * rewrite lookup_insert_is_Some. intros [<-|[_ H]]; [|apply IH3, H].
        eapply entryOf_symbol, He.
Qed.

End FnoLotsFacts.

Lemma getFnoLots_last_line_wins_witness :
  FnoLots.getFnoLots
    (fun cell => if String.eqb cell "25" then JS.Num 25
                 else if String.eqb cell "75" then JS.Num 75 else JS.NaN)
    None
    ("UNDERLYING,SYMBOL,x,LOT" ++ String "010" "a,NIFTY,x,25"
       ++ String "013" (String "010" "b, NIFTY ,x, 75 ,y"))%string
    !! "NIFTY"%string = Some 75%Q.
Proof.
  rewrite (proj1 (getFnoLots_last_line_wins _ None _ "NIFTY"%string));
    [reflexivity | discriminate].
Defined.

(** ** Bulk deals *)

Section BulkDealsFacts.
Import MarketApi.
Variable formatDateDMY : Z -> string.
Variable Deal : Type.
Variable request : string -> option (list Deal).

Lemma daysDiff_gt (d : Z) :
  JS.Qltb 365 (inject_Z d / 86400000) = true <-> 31536000000 < d.
Proof.
  rewrite Qltb_lt.
  assert (H : (inject_Z d / 86400000 == inject_Z d * (1 # 86400000))%Q)
    by (unfold Qdiv; reflexivity).
  rewrite H. split; intros Hlt.
  - apply Z.lt_nge. intros Hle. rewrite Zle_Qle in Hle.
    change (inject_Z 31536000000) with 31536000000%Q in Hle. lra.
  - rewrite Zlt_Qlt in Hlt.
    change (inject_Z 31536000000) with 31536000000%Q in Hlt. lra.
Qed.

(** X19.  [getBulkDeals] refuses a range exactly when [toDate] is more
    than 365 days, to the millisecond, after [fromDate]; a range given
    backwards is not refused.  Otherwise it returns the deals of the
    response when there is at least one, and fails when the response has
    none: a list it returns is never empty. *)
Theorem getBulkDeals_guard (fromDate toDate : Z) :
  (getBulkDeals formatDateDMY Deal request fromDate toDate = inl RangeExceedsOneYear
     <-> 31536000000 < toDate - fromDate) /\
  (forall deals,
      getBulkDeals formatDateDMY Deal request fromDate toDate = inr deals <->
      toDate - fromDate <= 31536000000 /\ deals <> [] /\
      request (bulkDealsUrl formatDateDMY fromDate toDate) = Some deals).
Proof.
  unfold getBulkDeals. pose proof (daysDiff_gt (toDate - fromDate)) as Hd.
  destruct (JS.Qltb 365 _) eqn:Hg.
  - assert (31536000000 < toDate - fromDate) by (apply Hd; reflexivity).
    split; [tauto|]. intros deals. split; [discriminate | lia].
  - assert (~ 31536000000 < toDate - fromDate) by (intros H; apply Hd in H; discriminate).
    split.
    + split; [|contradiction].
      destruct (request _) as [[|d ds]|]; discriminate.
    + intros deals. destruct (request _) as [[|d ds]|]; split;
        try discriminate; try (intros (_ & Hne & Heq); congruence).
      intros Heq. injection Heq as <-. repeat split; [lia | discriminate].
Qed.

End BulkDealsFacts.

(** ** The legacy compiler: rows of the expiry *)

Section LegacyRowsFacts.
Import Chain Fixtures.

(** X20.  The legacy [compileOptionChain] counts only the rows of the
    expiry: its totals add up their open interests and its table has
    their strikes and no other.  For an expiry that no row has, the table
    is empty, the totals and [maxCoi], [maxPoi] are 0, the ratio is [NaN]
    and [maxpain] is [undefined]. *)
Theorem legacy_compileOptionChain_expiry_rows
    (Date : Type) (formatDateExpiry : Date -> string)
    (data : OptionChainData) (expiryDate : Date) (oc : CompiledOptionChain) :
  LegacyOptionsApi.compileOptionChain Date formatDateExpiry data expiryDate = Some oc ->
  let rows := List.filter (fun x => someEqb (Chain.expiryDate x)
                                            (formatDateExpiry expiryDate))
                          (Chain.data data) in
  coiTotal oc = Spec.sumZ (map Spec.callOI rows) /\
  poiTotal oc = Spec.sumZ (map Spec.putOI rows) /\
  (forall k : Z, is_Some (chain oc !! k) <-> In k (map strikePrice rows)) /\
  (rows = [] ->
   chain oc = ∅ /\ pcr oc = JS.NaN /\ maxpain oc = None /\
   maxCoi oc = 0 /\ maxPoi oc = 0).
Proof.
  intros Hoc rows.
  destruct (legacy_compileOptionChain_totals Date formatDateExpiry data expiryDate oc Hoc)
    as (Hc & Hp & Hpcr & _).
  fold rows in Hc, Hp.
  unfold LegacyOptionsApi.compileOptionChain in Hoc.
  destruct (filtered_data data) as [|r0 [|r1 rest]]; try discriminate.
  injection Hoc as Hoc.
  set (keep := fun x => someEqb (Chain.expiryDate x) (formatDateExpiry expiryDate)) in *.
  assert (Hlook : forall k, chain oc !! k =
            match list.last (List.filter (fun x => strikePrice x =? k) rows) with
            | Some x => t_chain (compileRow chg initTotals x) !! k
            | None => None
            end).
  { intros k.
    pose proof (compileRows_chain_last chg keep (Chain.data data) initTotals k) as Hk.
    fold rows in Hk. rewrite <- Hoc. cbn [chain].
    etransitivity; [exact Hk|].
    destruct (list.last _); [reflexivity | apply lookup_empty]. }
  split; [exact Hc|]. split; [exact Hp|]. split; [|].
  - intros k. rewrite Hlook.
    destruct (list.last _) as [x|] eqn:Hl.
    + assert (Hx : In x (List.filter (fun x => strikePrice x =? k) rows))
        by (apply list_elem_of_In, last_Some_elem_of, Hl).
      apply filter_In in Hx as [Hx Hk]. apply Z.eqb_eq in Hk.
      split.
      * intros _. rewrite <- Hk. apply in_map, Hx.
      * intros _. cbn [compileRow t_chain]. rewrite Hk, lookup_insert_eq. eexists. reflexivity.
    + apply last_None in Hl. split; [intros [v Hv]; discriminate|].
      intros Hin. apply in_map_iff in Hin as (y & Hy & Hin).
      assert (Hf : In y (List.filter (fun x => strikePrice x =? k) rows))
        by (apply filter_In; split; [exact Hin | apply Z.eqb_eq, Hy]).
      rewrite Hl in Hf. destruct Hf.
  - intros Hnil.
    assert (Hkeep : forall x, In x (Chain.data data) -> keep x = false).
    { intros x Hx. destruct (keep x) eqn:Hk; [|reflexivity].
      assert (Hin : In x rows) by (apply filter_In; auto).
      rewrite Hnil in Hin. destruct Hin. }
    split; [|split; [|split; [|split]]].
    + apply map_eq. intros k. rewrite Hlook, Hnil. symmetry. apply lookup_empty.
    + rewrite Hpcr, Hc, Hp, Hnil. reflexivity.
    + rewrite <- Hoc. cbn [maxpain]. unfold LegacyOptionsApi.calculateMaxPain.
      apply maxPainStrike_none. exact Hkeep.
    + rewrite <- Hoc. cbn [maxCoi].
      destruct (compileRows_maxCoi chg keep (Chain.data data) initTotals ltac:(simpl; lia))
        as [(_ & Hs & _)|(pre & x & post & Hf & _)]; [exact Hs|].
      fold rows in Hf. rewrite Hnil in Hf. destruct pre; discriminate.
    + rewrite <- Hoc. cbn [maxPoi].
      destruct (compileRows_maxPoi chg keep (Chain.data data) initTotals ltac:(simpl; lia))
        as [(_ & Hs & _)|(pre & x & post & Hf & _)]; [exact Hs|].
      fold rows in Hf. rewrite Hnil in Hf. destruct pre; discriminate.
Qed.

Lemma legacy_compileOptionChain_expiry_rows_witness :
  exists oc,
    LegacyOptionsApi.compileOptionChain string id putsOnlyChain "03-Oct-2025" = Some oc /\
    pcr oc = JS.NaN /\ maxpain oc = None.
Proof.
  eexists. split; [reflexivity|].
  destruct (legacy_compileOptionChain_expiry_rows string id putsOnlyChain
              "03-Oct-2025"%string _ eq_refl) as (_ & _ & _ & H).
  destruct (H eq_refl) as (_ & Hpcr & Hmp & _). split; assumption.
Defined.

End LegacyRowsFacts.
